(** * EcoRoute: the fuel-estimation and route-ranking engine

    A shallow embedding of [backend/server.js]: the vehicle registry
    [VEHICLES], the function [calculateFuel] and the part of the
    [/api/calculate-route] handler that annotates and ranks the routes
    returned by the routing service.

    Numbers.  JavaScript numbers are modelled as exact rationals extended
    with [NaN] and the two infinities: every arithmetic operator follows
    the IEEE 754 case analysis on the special values and is exact on finite
    operands.  The rounding error and the overflow of binary64, and the
    sign of zero, are outside the model.  Where a statement on figures
    would not survive rounding, it relates the results of these operators
    to each other, or is an inequality that rounding to the nearest number
    keeps; where it depends on the range of binary64, the range is a
    hypothesis.

    Objects.  Arrays are references into a heap, so that sorting in place
    and copying are told apart; the lookup [VEHICLES[key]] goes through
    the prototype chain of the object literal.

    The rest of the server and the page.  The geocoding of the two
    addresses, which comes first in the handler, the endpoint
    [/api/search] with its cache, and of [frontend/script.js] the form of
    the request, the picking of a suggestion and [debounce] are modelled
    after the engine.  The remote services are functions that give the
    answer to each request; a handler that awaits runs in two turns.  The
    request to the routing service, and the drawing of the map and of the
    list of routes, are not modelled. *)

From Stdlib Require Import ZArith QArith Qround Qabs Lqa Lia Bool List Sorted Ascii String.
From stdpp Require Import gmap strings sorting.
Import ListNotations.

Local Open Scope Z_scope.
Local Open Scope Q_scope.

(** ** JavaScript numbers *)

Module Number.

(** A finite number is a rational; every operation returns it in lowest
    terms, so that equal results are equal terms. *)
Inductive number : Type :=
| NaN
| Infinity (negative : bool)
| Finite (q : Q).

Definition of_Z (z : Z) : number := Finite (inject_Z z).

Definition is_finite (x : number) : bool :=
  match x with Finite _ => true | _ => false end.

Definition is_nan (x : number) : bool :=
  match x with NaN => true | _ => false end.

Definition Qneg (q : Q) : bool := Z.ltb (Qnum q) 0.
Definition Qzero (q : Q) : bool := Z.eqb (Qnum q) 0.

(** Unary minus. *)
Definition neg (x : number) : number :=
  match x with
  | NaN => NaN
  | Infinity s => Infinity (negb s)
  | Finite q => Finite (Qred (- q))
  end.

(** [x + y] *)
Definition add (x y : number) : number :=
  match x, y with
  | NaN, _ | _, NaN => NaN
  | Infinity s, Infinity t => if Bool.eqb s t then Infinity s else NaN
  | Infinity s, Finite _ => Infinity s
  | Finite _, Infinity t => Infinity t
  | Finite a, Finite b => Finite (Qred (a + b))
  end.

(** [x - y] *)
Definition sub (x y : number) : number :=
  match x, y with
  | NaN, _ | _, NaN => NaN
  | Infinity s, Infinity t => if Bool.eqb s t then NaN else Infinity s
  | Infinity s, Finite _ => Infinity s
  | Finite _, Infinity t => Infinity (negb t)
  | Finite a, Finite b => Finite (Qred (a - b))
  end.

(** [x * y] *)
Definition mul (x y : number) : number :=
  match x, y with
  | NaN, _ | _, NaN => NaN
  | Infinity s, Infinity t => Infinity (xorb s t)
  | Infinity s, Finite b => if Qzero b then NaN else Infinity (xorb s (Qneg b))
  | Finite a, Infinity t => if Qzero a then NaN else Infinity (xorb (Qneg a) t)
  | Finite a, Finite b => Finite (Qred (a * b))
  end.

(** [x / y]: a finite non-zero number over zero is an infinity, zero over
    zero is [NaN]. *)
Definition div (x y : number) : number :=
  match x, y with
  | NaN, _ | _, NaN => NaN
  | Infinity _, Infinity _ => NaN
  | Infinity s, Finite b => Infinity (xorb s (Qneg b))
  | Finite _, Infinity _ => Finite 0
  | Finite a, Finite b =>
      if Qzero b then (if Qzero a then NaN else Infinity (Qneg a))
      else Finite (Qred (a / b))
  end.

(** [x < y]: false as soon as an operand is [NaN]. *)
Definition lt (x y : number) : bool :=
  match x, y with
  | NaN, _ | _, NaN => false
  | Infinity s, Infinity t => s && negb t
  | Infinity s, Finite _ => s
  | Finite _, Infinity t => negb t
  | Finite a, Finite b =>
      match a ?= b with Lt => true | _ => false end
  end.

(** [x > y] *)
Definition gt (x y : number) : bool := lt y x.

(** [x === y] on numbers. *)
Definition strict_eq (x y : number) : bool :=
  match x, y with
  | Infinity s, Infinity t => Bool.eqb s t
  | Finite a, Finite b => Qeq_bool a b
  | _, _ => false
  end.

(** [x <= y] *)
Definition le (x y : number) : bool := lt x y || strict_eq x y.

(** ToBoolean on a number: [0] and [NaN] are falsy. *)
Definition truthy (x : number) : bool :=
  match x with
  | NaN => false
  | Infinity _ => true
  | Finite q => negb (Qzero q)
  end.

(** [Math.round]: the nearest integer, a tie going to the larger one. *)
Definition round (x : number) : number :=
  match x with
  | Finite q => of_Z (Qfloor (q + (1 # 2)))
  | _ => x
  end.

End Number.

Export Number.

Declare Scope number_scope.
Delimit Scope number_scope with num.
Bind Scope number_scope with number.
Infix "+" := Number.add : number_scope.
Infix "-" := Number.sub : number_scope.
Infix "*" := Number.mul : number_scope.
Infix "/" := Number.div : number_scope.
Infix "<" := Number.lt : number_scope.
Infix ">" := Number.gt : number_scope.
Infix "===" := Number.strict_eq (at level 70, no associativity) : number_scope.
Coercion Number.Finite : Q >-> number.

(** ** Strings produced from numbers, and [parseFloat] *)

Module Text.

Local Open Scope string_scope.

(** A string value.  [NumberToString q] stands for the result of
    Number::toString on a finite number of magnitude at least [10^21]: an
    exponent notation whose digits depend on the binary64 representation.
    It is kept symbolic; by the language definition it reads back as the
    number it was made from. *)
Inductive jsstring : Type :=
| Chars (s : string)
| NumberToString (q : Q).

Definition is_digit (c : ascii) : bool :=
  let n := nat_of_ascii c in (48 <=? n)%nat && (n <=? 57)%nat.

Definition digit_value (c : ascii) : Z := (Z.of_nat (nat_of_ascii c) - 48)%Z.

Definition digit_char (d : Z) : ascii := ascii_of_nat (Z.to_nat (48 + d)).

(** The [k] low-order decimal digits of [n], most significant first. *)
Fixpoint fixed_width (k : nat) (n : Z) : string :=
  match k with
  | O => EmptyString
  | S k' => String (digit_char ((n / 10 ^ Z.of_nat k') mod 10)%Z) (fixed_width k' n)
  end.

Fixpoint count_digits (fuel : nat) (n : Z) : nat :=
  match fuel with
  | O => 1
  | S fuel' => if (n <? 10)%Z then 1%nat else S (count_digits fuel' (n / 10)%Z)
  end.

(** The number of digits of the decimal representation of [n >= 0]. *)
Definition decimal_length (n : Z) : nat := count_digits (Z.to_nat (Z.log2 n)) n.

(** The decimal representation of [n >= 0], without leading zeroes. *)
Definition decimal (n : Z) : string := fixed_width (decimal_length n) n.

(** [x.toFixed(f)] for [0 <= f <= 100].  [n] is the integer for which
    [n / 10^f - |x|] is closest to zero, the larger one on a tie; its
    digits are split [f] places from the right. *)
Definition toFixed (x : number) (f : nat) : jsstring :=
  match x with
  | NaN => Chars "NaN"
  | Infinity false => Chars "Infinity"
  | Infinity true => Chars "-Infinity"
  | Finite q =>
      if Qle_bool (inject_Z (10 ^ 21)) (Qabs q) then NumberToString q
      else
        let scale := (10 ^ Z.of_nat f)%Z in
        let n := Qfloor (Qabs q * inject_Z scale + (1 # 2)) in
        let s := if Qneg q then "-" else "" in
        let m := match f with
                 | O => decimal n
                 | _ => decimal (n / scale) ++ "." ++ fixed_width f (n mod scale)
                 end in
        Chars (s ++ m)
  end.

(** The white space and the line terminators among the code units below
    256: tab to carriage return, the space and the no-break space. *)
Definition is_white_space (c : ascii) : bool :=
  let n := nat_of_ascii c in
  ((9 <=? n) && (n <=? 13) || (n =? 32) || (n =? 160))%nat.

Fixpoint trim_start (s : string) : string :=
  match s with
  | String c s' => if is_white_space c then trim_start s' else s
  | EmptyString => s
  end.

(** Reads the longest run of digits at the head of [s]: the value read so
    far, the number of digits read and the rest of the string. *)
Fixpoint read_digits (s : string) (acc : Z) (count : nat) : Z * nat * string :=
  match s with
  | String c s' =>
      if is_digit c then read_digits s' (10 * acc + digit_value c)%Z (S count)
      else (acc, count, s)
  | EmptyString => (acc, count, s)
  end.

(** The value of an ExponentPart at the head of [s], [0] when there is none. *)
Definition read_exponent (s : string) : Z :=
  match s with
  | String c s1 =>
      if (Ascii.eqb c "e" || Ascii.eqb c "E")%bool then
        let '(minus, s2) :=
          match s1 with
          | String "+" r => (false, r)
          | String "-" r => (true, r)
          | _ => (false, s1)
          end in
        let '(e, k, _) := read_digits s2 0 0 in
        if (k =? 0)%nat then 0%Z else if minus then (- e)%Z else e
      else 0%Z
  | EmptyString => 0%Z
  end.

(** The longest prefix of [s] that is an unsigned decimal literal. *)
Definition read_decimal (s : string) : number :=
  let '(i, ni, r1) := read_digits s 0 0 in
  let '(fr, nf, r2) :=
    match r1 with
    | String "." r => read_digits r 0 0
    | _ => (0%Z, O, r1)
    end in
  if (ni + nf =? 0)%nat then NaN
  else Finite (Qred ((inject_Z i + inject_Z fr / inject_Z (10 ^ Z.of_nat nf))
                     * 10 ^ read_exponent r2)).

Definition read_signed (s : string) : number :=
  let '(minus, r) :=
    match s with
    | String "+" r => (false, r)
    | String "-" r => (true, r)
    | _ => (false, s)
    end in
  if String.prefix "Infinity" r then Infinity minus
  else if minus then Number.neg (read_decimal r) else read_decimal r.

(** [parseFloat(s)] *)
Definition parseFloat (s : jsstring) : number :=
  match s with
  | Chars s => read_signed (trim_start s)
  | NumberToString q => Finite (Qred q)
  end.

End Text.

Export Text.

(** ** Vehicle data *)

Local Open Scope string_scope.

(** Consumption in litres per 100 km; the optimal speed (km/h) is the speed
    at which the engine is most efficient. *)
Record VehicleProfile : Type := {
  baseConsumption : Q;
  optimalSpeed : Q;
  dragFactor : Q
}.

Definition motorbike : VehicleProfile :=
  {| baseConsumption := 2.5; optimalSpeed := 50; dragFactor := 0.05 |}.

Definition car : VehicleProfile :=
  {| baseConsumption := 7.0; optimalSpeed := 80; dragFactor := 0.1 |}.

Definition truck : VehicleProfile :=
  {| baseConsumption := 15.0; optimalSpeed := 70; dragFactor := 0.2 |}.

(** The own properties of the object literal [VEHICLES]. *)
Definition VEHICLES : gmap string VehicleProfile :=
  <["motorbike" := motorbike]> (<["car" := car]> (<["truck" := truck]> ∅)).

(** The property names every object literal inherits from
    [Object.prototype]; each of them holds a function, [__proto__] holds
    the prototype object. *)
Definition Object_prototype : list string :=
  [ "constructor"; "__defineGetter__"; "__defineSetter__"; "hasOwnProperty";
    "__lookupGetter__"; "__lookupSetter__"; "isPrototypeOf";
    "propertyIsEnumerable"; "toString"; "valueOf"; "__proto__";
    "toLocaleString" ].

(** What [VEHICLES[key]] can evaluate to, [undefined] apart. *)
Inductive vehicle : Type :=
| Profile (p : VehicleProfile)
| Inherited (name : string).

(** [VEHICLES[key]]: an own property, else a property found on the
    prototype, else [undefined] ([None]). *)
Definition VEHICLES_get (key : string) : option vehicle :=
  match VEHICLES !! key with
  | Some p => Some (Profile p)
  | None =>
      if bool_decide (key ∈ Object_prototype) then Some (Inherited key) else None
  end.

(** [VEHICLES[vehicleType] || VEHICLES.car]: objects and functions are
    truthy, [undefined] is not. *)
Definition resolve (vehicleType : string) : vehicle :=
  match VEHICLES_get vehicleType with
  | Some v => v
  | None => Profile car
  end.

(** [vehicle.optimalSpeed] and [vehicle.baseConsumption] as operands of an
    arithmetic operator or a comparison: a property that is absent reads
    [undefined], which converts to [NaN]. *)
Definition vehicle_optimalSpeed (v : vehicle) : number :=
  match v with
  | Profile p => Finite (optimalSpeed p)
  | Inherited _ => NaN
  end.

Definition vehicle_baseConsumption (v : vehicle) : number :=
  match v with
  | Profile p => Finite (baseConsumption p)
  | Inherited _ => NaN
  end.

(** ** Fuel calculation *)

(** The GeoJSON geometry of a route; the engine passes it through. *)
Record Geometry : Type := {
  geometry_type : string;
  coordinates : list (Q * Q)
}.

(** A route as the routing service returns it: metres and seconds, both
    JSON numbers, hence finite. *)
Module Route.
Record t : Type := {
  distance : Q;
  duration : Q;
  geometry : Geometry
}.
End Route.

Module FuelStats.
Record t : Type := {
  fuelUsed : number;
  avgSpeed : number;
  efficiencyFactor : number
}.
End FuelStats.

Local Open Scope number_scope.

(** [calculateFuel(route, vehicleType)] *)
Definition calculateFuel (route : Route.t) (vehicleType : string) : FuelStats.t :=
  let vehicle := resolve vehicleType in
  let distanceKm := Finite (Route.distance route) / 1000 in
  let durationHr := Finite (Route.duration route) / 3600 in
  (* Avoid division by zero *)
  let avgSpeed := if durationHr > 0 then distanceKm / durationHr else 0 in
  let efficiencyFactor := 1 in
  let efficiencyFactor :=
    if avgSpeed < vehicle_optimalSpeed vehicle then
      (* Traffic penalty: slower than optimal implies traffic or city driving *)
      let speedDiff := vehicle_optimalSpeed vehicle - avgSpeed in
      efficiencyFactor + (speedDiff / 20) * 0.2
    else
      (* Highway penalty: linear in the excess of speed *)
      let speedDiff := avgSpeed - vehicle_optimalSpeed vehicle in
      efficiencyFactor + (speedDiff / 30) * 0.1 in
  (* (Distance / 100) * Rate * EfficiencyFactor *)
  let fuelUsed :=
    (distanceKm / 100) * vehicle_baseConsumption vehicle * efficiencyFactor in
  {| FuelStats.fuelUsed := parseFloat (toFixed fuelUsed 2);
     FuelStats.avgSpeed := Number.round avgSpeed;
     FuelStats.efficiencyFactor := parseFloat (toFixed efficiencyFactor 2) |}.

(** *** The intermediate values of [calculateFuel], by name *)

Definition distanceKm_of (route : Route.t) : number :=
  Finite (Route.distance route) / 1000.

Definition durationHr_of (route : Route.t) : number :=
  Finite (Route.duration route) / 3600.

(** The average speed, before rounding. *)
Definition avgSpeed_of (route : Route.t) : number :=
  let distanceKm := distanceKm_of route in
  let durationHr := durationHr_of route in
  if durationHr > 0 then distanceKm / durationHr else 0.

(** The formula of the first branch, the traffic penalty. *)
Definition traffic_penalty (optimal avgSpeed : number) : number :=
  let speedDiff := optimal - avgSpeed in
  1 + (speedDiff / 20) * 0.2.

(** The formula of the second branch, the highway penalty. *)
Definition highway_penalty (optimal avgSpeed : number) : number :=
  let speedDiff := avgSpeed - optimal in
  1 + (speedDiff / 30) * 0.1.

(** The efficiency factor, before rounding. *)
Definition efficiencyFactor_of (v : vehicle) (avgSpeed : number) : number :=
  if avgSpeed < vehicle_optimalSpeed v
  then traffic_penalty (vehicle_optimalSpeed v) avgSpeed
  else highway_penalty (vehicle_optimalSpeed v) avgSpeed.

(** The fuel used, before rounding. *)
Definition fuelUsed_of (v : vehicle) (route : Route.t) : number :=
  (distanceKm_of route / 100) * vehicle_baseConsumption v
  * efficiencyFactor_of v (avgSpeed_of route).

(** [calculateFuel] on a vehicle that is already resolved. *)
Definition calculateFuel_with (v : vehicle) (route : Route.t) : FuelStats.t :=
  {| FuelStats.fuelUsed := parseFloat (toFixed (fuelUsed_of v route) 2);
     FuelStats.avgSpeed := Number.round (avgSpeed_of route);
     FuelStats.efficiencyFactor :=
       parseFloat (toFixed (efficiencyFactor_of v (avgSpeed_of route)) 2) |}.

(** ** The annotated route *)

Module ProcessedRoute.
Record t : Type := {
  id : nat;
  geometry : Geometry;
  distanceKm : jsstring;
  durationMin : jsstring;
  fuelUsedLiters : number;
  fuelCost : jsstring;
  avgSpeed : number;
  isFastest : bool;
  score : number
}.
End ProcessedRoute.

(** [fuelPrice || 0]: an absent price, [null] and [0] all give [0]. *)
Definition price_or_zero (fuelPrice : option Q) : number :=
  match fuelPrice with
  | Some p => if Number.truthy (Finite p) then Finite p else 0
  | None => 0
  end.

(** The callback of [routes.map((route, index) => ...)]. *)
Definition process_route (vehicleType : string) (fuelPrice : option Q)
    (index : nat) (route : Route.t) : ProcessedRoute.t :=
  let fuelStats := calculateFuel route vehicleType in
  let cost := FuelStats.fuelUsed fuelStats * price_or_zero fuelPrice in
  {| ProcessedRoute.id := index;
     ProcessedRoute.geometry := Route.geometry route;
     ProcessedRoute.distanceKm := toFixed (Finite (Route.distance route) / 1000) 1;
     ProcessedRoute.durationMin := toFixed (Finite (Route.duration route) / 60) 0;
     ProcessedRoute.fuelUsedLiters := FuelStats.fuelUsed fuelStats;
     ProcessedRoute.fuelCost := toFixed cost 0;
     ProcessedRoute.avgSpeed := FuelStats.avgSpeed fuelStats;
     ProcessedRoute.isFastest := Nat.eqb index 0;
     ProcessedRoute.score := FuelStats.fuelUsed fuelStats |}.

(** The comparator [(a, b) => a.fuelUsedLiters - b.fuelUsedLiters]. *)
Definition by_fuel (a b : ProcessedRoute.t) : number :=
  ProcessedRoute.fuelUsedLiters a - ProcessedRoute.fuelUsedLiters b.

(** *** Values as a caller inspects them *)

Inductive jsval : Type :=
| VUndefined
| VBoolean (b : bool)
| VNumber (n : number)
| VString (s : jsstring)
| VObject (g : Geometry).

Definition typeof (v : jsval) : string :=
  match v with
  | VUndefined => "undefined"
  | VBoolean _ => "boolean"
  | VNumber _ => "number"
  | VString _ => "string"
  | VObject _ => "object"
  end.

(** The own properties of the object literal built by [process_route], in
    the order in which it lists them. *)
Definition own_properties (r : ProcessedRoute.t) : list (string * jsval) :=
  [ ("id", VNumber (Finite (inject_Z (Z.of_nat (ProcessedRoute.id r)))));
    ("geometry", VObject (ProcessedRoute.geometry r));
    ("distanceKm", VString (ProcessedRoute.distanceKm r));
    ("durationMin", VString (ProcessedRoute.durationMin r));
    ("fuelUsedLiters", VNumber (ProcessedRoute.fuelUsedLiters r));
    ("fuelCost", VString (ProcessedRoute.fuelCost r));
    ("avgSpeed", VNumber (ProcessedRoute.avgSpeed r));
    ("isFastest", VBoolean (ProcessedRoute.isFastest r));
    ("score", VNumber (ProcessedRoute.score r)) ].

Fixpoint assoc (key : string) (l : list (string * jsval)) : option jsval :=
  match l with
  | [] => None
  | (k, v) :: l' => if String.eqb key k then Some v else assoc key l'
  end.

(** Whether the object has an own property [key]. *)
Definition hasOwnProperty (r : ProcessedRoute.t) (key : string) : bool :=
  match assoc key (own_properties r) with Some _ => true | None => false end.

(** The own property [key] of the object; [undefined] when it has none. *)
Definition own_property (r : ProcessedRoute.t) (key : string) : jsval :=
  match assoc key (own_properties r) with Some v => v | None => VUndefined end.

(** ** Arrays *)

(** [Array.prototype.sort] is stable and orders by the sign of the
    comparator; a comparator result of [NaN] counts as [0].  The model is
    the insertion sort; for a comparator that orders by a key that is never
    [NaN], every stable sort gives the same list (stable_sort_unique). *)
Fixpoint insert_sorted {A : Type} (cmp : A → A → number) (x : A) (l : list A) : list A :=
  match l with
  | [] => [x]
  | y :: l' => if cmp x y > 0 then y :: insert_sorted cmp x l' else x :: l
  end.

Fixpoint sorted {A : Type} (cmp : A → A → number) (l : list A) : list A :=
  match l with
  | [] => []
  | x :: l' => insert_sorted cmp x (sorted cmp l')
  end.

(** The comparator that orders by a numeric key, [(a, b) => key(a) - key(b)]. *)
Definition by_key {A : Type} (key : A → number) (a b : A) : number :=
  Number.sub (key a) (key b).

(** [precedes key a b]: in a list sorted by [key], [a] comes before [b].
    Both carry the position they had before the sort: [a] has the smaller
    key, or the comparator does not put [b] first and [a] was earlier. *)
Definition precedes {A : Type} (key : A → number) (a b : nat * A) : Prop :=
  Number.lt (key a.2) (key b.2) = true
  ∨ (Number.lt (key b.2) (key a.2) = false ∧ (a.1 < b.1)%nat).

(** [l'] is [l] sorted by [key] in a stable way. *)
Definition stable_sort_of {A : Type} (key : A → number) (l l' : list A) : Prop :=
  ∃ t, t ≡ₚ imap pair l ∧ StronglySorted (precedes key) t ∧ l' = t.*2.

(** Arrays are mutable objects: a variable holds a reference into the heap. *)
Definition ref : Type := nat.

Inductive exn : Type :=
| TypeError (message : string).

Inductive outcome (A : Type) : Type :=
| Returned (a : A)
| Thrown (e : exn).
Arguments Returned {A} a.
Arguments Thrown {A} e.

(** Computations that read and write the heap of arrays and may throw. *)
Definition js (A : Type) : Type :=
  gmap ref (list ProcessedRoute.t) → outcome A * gmap ref (list ProcessedRoute.t).

#[global] Instance js_ret : MRet js := λ A a h, (Returned a, h).

#[global] Instance js_bind : MBind js := λ A B k m h,
  match m h with
  | (Returned a, h') => k a h'
  | (Thrown e, h') => (Thrown e, h')
  end.

Definition throw {A : Type} (e : exn) : js A := λ h, (Thrown e, h).

(** [try { body } catch (error) { handler }] *)
Definition try_catch {A : Type} (body : js A) (handler : exn → js A) : js A := λ h,
  match body h with
  | (Returned a, h') => (Returned a, h')
  | (Thrown e, h') => handler e h'
  end.

(** Allocation of a new array. *)
Definition new_array (l : list ProcessedRoute.t) : js ref := λ h,
  let r := fresh (dom h) in (Returned r, <[r := l]> h).

(** The elements an array holds now. *)
Definition elements_of (a : ref) : js (list ProcessedRoute.t) := λ h,
  (Returned (default [] (h !! a)), h).

(** [routes.map(callback)]: a new array. *)
Definition Array_map (callback : nat → Route.t → ProcessedRoute.t)
    (routes : list Route.t) : js ref :=
  new_array (imap callback routes).

(** [[...a]]: a new array with the elements of [a]. *)
Definition spread (a : ref) : js ref :=
  l ← elements_of a; new_array l.

(** [a.sort(cmp)]: sorts [a] in place and returns [a] itself. *)
Definition Array_sort (cmp : ProcessedRoute.t → ProcessedRoute.t → number)
    (a : ref) : js ref := λ h,
  (Returned a, <[a := sorted cmp (default [] (h !! a))]> h).

(** [a[i]]: [undefined] ([None]) out of range. *)
Definition Array_get (a : ref) (i : nat) : js (option ProcessedRoute.t) :=
  l ← elements_of a; mret (l !! i).

(** [x.id]: reading a property of [undefined] throws. *)
Definition get_id (x : option ProcessedRoute.t) : js nat :=
  match x with
  | Some r => mret (ProcessedRoute.id r)
  | None => throw (TypeError "Cannot read properties of undefined (reading 'id')")
  end.

(** ** The endpoint, from the answer of the routing service on *)

Record Coords : Type := {
  lat : Q;
  lon : Q
}.

Inductive body : Type :=
| ErrorBody (error : string)
| RoutesBody (start end_ : Coords) (routes : list ProcessedRoute.t)
    (bestFuelRouteId : nat).

Record Response : Type := {
  status : nat;
  json : body
}.

(** The annotation and the ranking of the routes. *)
Definition estimate (startCoords endCoords : Coords) (routes : list Route.t)
    (vehicleType : string) (fuelPrice : option Q) : js Response :=
  processedRoutes ← Array_map (process_route vehicleType fuelPrice) routes;
  copy ← spread processedRoutes;
  sortedByFuel ← Array_sort by_fuel copy;
  first ← Array_get sortedByFuel 0;
  bestFuelRouteId ← get_id first;
  sent ← elements_of processedRoutes;
  mret {| status := 200;
          json := RoutesBody startCoords endCoords sent bestFuelRouteId |}.

(** [!routes || routes.length === 0]; [None] is an answer without routes. *)
Definition no_route (routes : option (list Route.t)) : bool :=
  match routes with
  | None => true
  | Some l => Nat.eqb (length l) 0
  end.

Definition respond (startCoords endCoords : Coords)
    (routes : option (list Route.t)) (vehicleType : string)
    (fuelPrice : option Q) : js Response :=
  if no_route routes then
    mret {| status := 404; json := ErrorBody "No route found" |}
  else
    estimate startCoords endCoords (default [] routes) vehicleType fuelPrice.

Definition calculate_route (startCoords endCoords : Coords)
    (routes : option (list Route.t)) (vehicleType : string)
    (fuelPrice : option Q) : js Response :=
  try_catch (respond startCoords endCoords routes vehicleType fuelPrice)
    (λ error, mret {| status := 500; json := ErrorBody "Internal Server Error" |}).

(** ** Reference values for the statements *)

Local Open Scope Q_scope.

(** The number that the digits of [q.toFixed(f)] denote. *)
Definition toFixed_value (q : Q) (f : nat) : Q :=
  let n := Qfloor (Qabs q * inject_Z (10 ^ Z.of_nat f) + (1 # 2)) in
  (if Qneg q then - (1) else 1) * (inject_Z n / inject_Z (10 ^ Z.of_nat f)).

(** The number that [x.toFixed(f)] reads back as. *)
Definition toFixed_number (x : number) (f : nat) : number :=
  match x with
  | Finite q =>
      if Qle_bool (inject_Z (10 ^ 21)) (Qabs q) then Finite (Qred q)
      else Finite (Qred (toFixed_value q f))
  | _ => x
  end.

(** [v] is [x] rounded to [f] decimals: a multiple of [10^-f] at most half
    a unit of the last place away from [x]. *)
Definition rounded_to (f : nat) (x v : Q) : Prop :=
  (∃ n : Z, v == inject_Z n / inject_Z (10 ^ Z.of_nat f))
  ∧ Qabs (v - x) <= 1 / (2 * inject_Z (10 ^ Z.of_nat f)).

(** The notation with [f] decimals of [n / 10^f], for an integer [n >= 0],
    after a minus sign when [negative]: the digits of [n], the last [f] of
    them behind the point. *)
Definition decimal_notation (negative : bool) (n : Z) (f : nat) : string :=
  let scale := (10 ^ Z.of_nat f)%Z in
  ((if negative then "-" else "")
   ++ match f with
      | O => decimal n
      | _ => decimal (n / scale) ++ "." ++ fixed_width f (n mod scale)
      end)%string.

(** ** Sample inputs *)

Definition line : Geometry :=
  {| geometry_type := "LineString"; coordinates := [(106.66, 10.76); (106.70, 10.78)] |}.

Definition origin : Coords := {| lat := 10.762622; lon := 106.660172 |}.

Definition destination : Coords := {| lat := 10.78; lon := 106.70 |}.

(** 100 km in one hour. *)
Definition route_100km : Route.t :=
  {| Route.distance := 100000; Route.duration := 3600; Route.geometry := line |}.

(** 80 km in one hour: the optimal speed of a car. *)
Definition route_80km : Route.t :=
  {| Route.distance := 80000; Route.duration := 3600; Route.geometry := line |}.

(** 90 km in 4000 s. *)
Definition route_90km : Route.t :=
  {| Route.distance := 90000; Route.duration := 4000; Route.geometry := line |}.

(** A route between two identical points. *)
Definition route_still : Route.t :=
  {| Route.distance := 12; Route.duration := 0; Route.geometry := line |}.

(** 60 km, 70 km, 81 km and 79.7 km in one hour. *)
Definition route_60km : Route.t :=
  {| Route.distance := 60000; Route.duration := 3600; Route.geometry := line |}.

Definition route_70km : Route.t :=
  {| Route.distance := 70000; Route.duration := 3600; Route.geometry := line |}.

Definition route_81km : Route.t :=
  {| Route.distance := 81000; Route.duration := 3600; Route.geometry := line |}.

Definition route_79700m : Route.t :=
  {| Route.distance := 79700; Route.duration := 3600; Route.geometry := line |}.

(** ** Proof automation *)

(** Linear arithmetic over the rationals, with divisions by constants
    turned into products. *)
Ltac qlra := unfold Qdiv in *; cbn [Qinv Qnum Qden] in *; lra.

(** * The rest of the server *)

(** ** Remote services *)

(** What a request to a remote service comes back with: the data of the
    answer, or a failure ([axios.get] throws). *)
Inductive reply (A : Type) : Type :=
| Replied (data : A)
| Failed (message : string).
Arguments Replied {A} data.
Arguments Failed {A} message.

Module Nominatim.

(** The parameters of a search that differ between the requests of the
    server; [format] is "json" in each of them. *)
Record params : Type := {
  q : string;
  limit : nat;
  addressdetails : bool
}.

(** One place of an answer; the service gives the coordinates as strings. *)
Record place : Type := {
  display_name : string;
  lat : string;
  lon : string;
  address : list (string * string)
}.

End Nominatim.

(** The geocoding service: the answer to each search. *)
Definition geocoder : Type := Nominatim.params → reply (list Nominatim.place).

(** Computations that search the geocoding service: they get its answers
    and yield, with their result, the searches they sent, in order. *)
Definition geo (A : Type) : Type := geocoder → A * list Nominatim.params.

#[global] Instance geo_ret : MRet geo := λ A a service, (a, []).

#[global] Instance geo_bind : MBind geo := λ A B k m service,
  let '(a, sent) := m service in
  let '(b, sent') := k a service in
  (b, (sent ++ sent')%list).

(** [axios.get(NOMINATIM_API, { params })] *)
Definition search_places (params : Nominatim.params) : geo (reply (list Nominatim.place)) :=
  λ service, (service params, [params]).

(** ** Geocoding *)

Module Location.
(** [{ lat, lon, display_name }]; the name is present when the place was
    found by a search. *)
Record t : Type := {
  lat : number;
  lon : number;
  display_name : option string
}.
End Location.

(** [getCoordinates(query)]: the first place found, [null] ([None]) when
    nothing was found and when the search failed. *)
Definition getCoordinates (query : string) : geo (option Location.t) :=
  response ← search_places
    {| Nominatim.q := query; Nominatim.limit := 1; Nominatim.addressdetails := false |};
  mret (match response with
        | Replied (first :: _) =>
            Some {| Location.lat := parseFloat (Chars (Nominatim.lat first));
                    Location.lon := parseFloat (Chars (Nominatim.lon first));
                    Location.display_name := Some (Nominatim.display_name first) |}
        | Replied [] => None
        | Failed _ => None
        end).

(** ** The request, and the endpoints of the trip *)

Module Request.
(** The body of [POST /api/calculate-route] as the page sends it: the
    coordinates are strings, or [null] ([None]). *)
Record t : Type := {
  start : string;
  destination : string;
  vehicleType : string;
  fuelPrice : option Q;
  startLat : option string;
  startLon : option string;
  destLat : option string;
  destLon : option string
}.
End Request.

(** ToBoolean on a string or [null]: the empty string and [null] are falsy. *)
Definition given (s : option string) : bool :=
  match s with
  | Some s => negb (String.eqb s "")
  | None => false
  end.

(** The coordinates of one endpoint: those the page gave, when it gave
    both, else those of a search for the text. *)
Definition locate (text : string) (lat lon : option string) : geo (option Location.t) :=
  if given lat && given lon then
    mret (Some {| Location.lat := parseFloat (Chars (default "" lat));
                  Location.lon := parseFloat (Chars (default "" lon));
                  Location.display_name := None |})
  else getCoordinates text.

(** The handler of [/api/calculate-route] up to its request to the routing
    service: the answer that ends it, or the two endpoints. *)
Definition locate_endpoints (req : Request.t) : geo (Response + Location.t * Location.t) :=
  startCoords ← locate (Request.start req) (Request.startLat req) (Request.startLon req);
  endCoords ← locate (Request.destination req) (Request.destLat req) (Request.destLon req);
  match startCoords, endCoords with
  | Some s, Some e => mret (inr (s, e))
  | _, _ =>
      mret (inl {| status := 404;
                   json := ErrorBody
                     "Locations not found. Please try selecting from the dropdown." |})
  end.

(** *** Sample requests and services *)

(** A geocoding service that is down. *)
Definition service_down : geocoder := λ _, Failed "connect ECONNREFUSED".

Definition ben_thanh : Nominatim.place :=
  {| Nominatim.display_name := "Ben Thanh Market, District 1, Ho Chi Minh City";
     Nominatim.lat := "10.7725";
     Nominatim.lon := "106.6980";
     Nominatim.address := [("city", "Ho Chi Minh City")] |}.

(** A geocoding service that knows one place, whatever the search. *)
Definition service_one_place : geocoder := λ _, Replied [ben_thanh].

(** A request whose two endpoints come with coordinates; those of the
    destination are not numbers. *)
Definition request_with_coordinates : Request.t :=
  {| Request.start := "somewhere"; Request.destination := "elsewhere";
     Request.vehicleType := "car"; Request.fuelPrice := Some 25000;
     Request.startLat := Some "10.76"; Request.startLon := Some "106.66";
     Request.destLat := Some "north"; Request.destLon := Some "east" |}.

(** A request with texts only. *)
Definition request_with_texts : Request.t :=
  {| Request.start := "Ben Thanh"; Request.destination := "Tan Son Nhat";
     Request.vehicleType := "motorbike"; Request.fuelPrice := None;
     Request.startLat := None; Request.startLon := None;
     Request.destLat := None; Request.destLon := None |}.

(** ** The search endpoint and its cache *)

(** A string is the sequence of its code units; the model has the code
    units below 256.  [toLowerCase] maps A-Z and the capital letters of
    Latin-1 (192-222, the sign 215 apart) to the letter 32 places on. *)
Definition lower_unit (c : ascii) : ascii :=
  let n := nat_of_ascii c in
  if ((65 <=? n) && (n <=? 90)
      || (192 <=? n) && (n <=? 222) && negb (n =? 215))%nat
  then ascii_of_nat (n + 32) else c.

Fixpoint toLowerCase (s : string) : string :=
  match s with
  | EmptyString => EmptyString
  | String c s' => String (lower_unit c) (toLowerCase s')
  end.

Module Place.
(** A suggestion: what the endpoint keeps of a place. *)
Record t : Type := {
  display_name : string;
  lat : string;
  lon : string
}.
End Place.

(** The callback of [response.data.map(...)]. *)
Definition suggestion (item : Nominatim.place) : Place.t :=
  {| Place.display_name := Nominatim.display_name item;
     Place.lat := Nominatim.lat item;
     Place.lon := Nominatim.lon item |}.

(** What [searchCache[key]] can evaluate to, [undefined] apart: an entry of
    the cache, or a member that the object inherits. *)
Inductive cached : Type :=
| Entry (results : list Place.t)
| Member (name : string).

(** [searchCache[key]], on the own properties [cache] of the object. *)
Definition searchCache_get (cache : gmap string (list Place.t)) (key : string) : option cached :=
  match cache !! key with
  | Some results => Some (Entry results)
  | None => if bool_decide (key ∈ Object_prototype) then Some (Member key) else None
  end.

Inductive search_body : Type :=
| Suggestions (results : list Place.t)
| InheritedMember (name : string)
| SearchError (error : string).

Record SearchResponse : Type := {
  search_status : nat;
  search_json : search_body
}.

(** The handler of [/api/search] runs in two turns, before and after its
    [await]: other requests can be served in between. *)

(** The first turn ends with an answer, or with a search sent to the
    service and the cache key to store its answer under. *)
Inductive first_turn : Type :=
| Answered (response : SearchResponse)
| Searching (params : Nominatim.params) (cacheKey : string).

(** From the start to the [await].  The query string has [q] once, a
    string, or not at all ([None]). *)
Definition search_begin (cache : gmap string (list Place.t)) (q : option string) : first_turn :=
  match q with
  | None => Answered {| search_status := 200; search_json := Suggestions [] |}
  | Some query =>
      if (String.eqb query "" || (String.length query <? 3)%nat)%bool then
        Answered {| search_status := 200; search_json := Suggestions [] |}
      else
        let cacheKey := toLowerCase query in
        match searchCache_get cache cacheKey with
        | Some (Entry results) =>
            Answered {| search_status := 200; search_json := Suggestions results |}
        | Some (Member name) =>
            Answered {| search_status := 200; search_json := InheritedMember name |}
        | None =>
            Searching {| Nominatim.q := query; Nominatim.limit := 5;
                         Nominatim.addressdetails := true |} cacheKey
        end
  end.

(** From the [await] on: the cache after the turn, and the answer.  The
    key is not ["__proto__"]: see [search_begin], which sends no search for
    an inherited name. *)
Definition search_resume (cache : gmap string (list Place.t)) (cacheKey : string)
    (answer : reply (list Nominatim.place)) : gmap string (list Place.t) * SearchResponse :=
  match answer with
  | Replied data =>
      let results := suggestion <$> data in
      (<[cacheKey := results]> cache,
       {| search_status := 200; search_json := Suggestions results |})
  | Failed _ =>
      (cache, {| search_status := 500; search_json := SearchError "Search failed" |})
  end.

(** The state of the server between two turns: the cache, and the cache
    key of each request that awaits the service. *)
Record server : Type := {
  searchCache : gmap string (list Place.t);
  awaiting : gmap nat string
}.

Definition server_start : server := {| searchCache := ∅; awaiting := ∅ |}.

(** What happens to the server: a request arrives, or the search of a
    request that awaits comes back. *)
Inductive event : Type :=
| Arrives (request : nat) (q : option string)
| Settles (request : nat) (answer : reply (list Nominatim.place)).

(** What the server does in a turn. *)
Inductive action : Type :=
| Sends (request : nat) (params : Nominatim.params)
| Answers (request : nat) (response : SearchResponse).

Definition search_turn (s : server) (e : event) : server * list action :=
  match e with
  | Arrives request q =>
      match search_begin (searchCache s) q with
      | Answered response => (s, [Answers request response])
      | Searching params cacheKey =>
          ({| searchCache := searchCache s;
              awaiting := <[request := cacheKey]> (awaiting s) |},
           [Sends request params])
      end
  | Settles request answer =>
      match awaiting s !! request with
      | Some cacheKey =>
          let '(cache, response) := search_resume (searchCache s) cacheKey answer in
          ({| searchCache := cache; awaiting := delete request (awaiting s) |},
           [Answers request response])
      | None => (s, [])
      end
  end.

(** A run of turns. *)
Fixpoint search_run (s : server) (events : list event) : server * list action :=
  match events with
  | [] => (s, [])
  | e :: events' =>
      let '(s', done) := search_turn s e in
      let '(s'', done') := search_run s' events' in
      (s'', (done ++ done')%list)
  end.

(** The keys the endpoint stores under: lower-case strings of at least
    three code units that name no inherited member. *)
Definition storable (key : string) : Prop :=
  (3 <= String.length key)%nat ∧ toLowerCase key = key ∧ key ∉ Object_prototype.

(** Every key of the cache, and every key that a request awaits to store
    under, is storable. *)
Definition keys_storable (s : server) : Prop :=
  (∀ key results, searchCache s !! key = Some results → storable key)
  ∧ (∀ request key, awaiting s !! request = Some key → storable key).

(** An entry that no request in flight will store under. *)
Definition settled (s : server) (key : string) (results : list Place.t) : Prop :=
  searchCache s !! key = Some results
  ∧ ∀ request, awaiting s !! request ≠ Some key.

(** * The page *)

(** ** The form and the request it sends *)

Module Input.
(** A text input of the page: its text, and its [data-lat] and [data-lon]
    attributes ([dataset.lat], [dataset.lon]), [None] while absent. *)
Record t : Type := {
  value : string;
  dataset_lat : option string;
  dataset_lon : option string
}.
End Input.

(** [item.onclick] of [renderSuggestions]: the text and the two
    attributes are those of the suggestion. *)
Definition pick (place : Place.t) (inputElement : Input.t) : Input.t :=
  {| Input.value := Place.display_name place;
     Input.dataset_lat := Some (Place.lat place);
     Input.dataset_lon := Some (Place.lon place) |}.

(** The user edits the text.  The attributes stay: [pick] is the only
    code of the page that writes them, and nothing removes them. *)
Definition retype (text : string) (inputElement : Input.t) : Input.t :=
  {| Input.value := text;
     Input.dataset_lat := Input.dataset_lat inputElement;
     Input.dataset_lon := Input.dataset_lon inputElement |}.

(** [x || null], on a string or [undefined]. *)
Definition or_null (x : option string) : option string :=
  if given x then x else None.

(** A number in [JSON.stringify]: [NaN] and the infinities become [null]. *)
Definition JSON_number (x : number) : option Q :=
  match x with
  | Finite q => Some q
  | _ => None
  end.

(** The elements of the form that [calculateRoutes] reads. *)
Record Form : Type := {
  startInput : Input.t;
  destInput : Input.t;
  vehicleSelect : string;
  fuelPriceInput : string
}.

(** The body of the request, as the server reads it. *)
Definition payload (form : Form) : Request.t :=
  {| Request.start := Input.value (startInput form);
     Request.destination := Input.value (destInput form);
     Request.vehicleType := vehicleSelect form;
     Request.fuelPrice := JSON_number (parseFloat (Chars (fuelPriceInput form)));
     Request.startLat := or_null (Input.dataset_lat (startInput form));
     Request.startLon := or_null (Input.dataset_lon (startInput form));
     Request.destLat := or_null (Input.dataset_lat (destInput form));
     Request.destLon := or_null (Input.dataset_lon (destInput form)) |}.

(** ** Debouncing *)

(** [debounce(func, wait)] keeps one timer: [timeout] is the pending
    timer, with the arguments its callback holds, [None] once it has
    fired.  Of the clock the model keeps the order of the events only. *)
Inductive tick (A : Type) : Type :=
| Called (args : A)
| Elapsed.
Arguments Called {A} args.
Arguments Elapsed {A}.

(** One event: the timer after it, and the calls of [func] it makes.  A
    call of the debounced function clears the pending timer and sets a new
    one; the timer, when it fires, calls [func] with the arguments of the
    call that set it. *)
Definition debounce_step {A : Type} (timeout : option A) (t : tick A) : option A * list A :=
  match t with
  | Called args => (Some args, [])
  | Elapsed =>
      match timeout with
      | Some args => (None, [args])
      | None => (None, [])
      end
  end.

Fixpoint debounce_run {A : Type} (timeout : option A) (ticks : list (tick A))
    : option A * list A :=
  match ticks with
  | [] => (timeout, [])
  | t :: ticks' =>
      let '(timeout', calls) := debounce_step timeout t in
      let '(timeout'', calls') := debounce_run timeout' ticks' in
      (timeout'', (calls ++ calls')%list)
  end.

(** The calls that a pause follows: the arguments of each call of the
    debounced function that comes right before the timer fires. *)
Fixpoint before_pause {A : Type} (ticks : list (tick A)) : list A :=
  match ticks with
  | Called args :: (Elapsed :: _) as rest => args :: before_pause rest
  | _ :: rest => before_pause rest
  | [] => []
  end.

(** *** A sample form *)

Definition place_ben_thanh : Place.t := suggestion ben_thanh.

Definition form_blank : Form :=
  {| startInput := {| Input.value := ""; Input.dataset_lat := None;
                      Input.dataset_lon := None |};
     destInput := {| Input.value := "Tan Son Nhat"; Input.dataset_lat := None;
                     Input.dataset_lon := None |};
     vehicleSelect := "car";
     fuelPriceInput := "" |}.

(** * Properties *)

(** ** Numbers *)

Section NumberFacts.

Local Open Scope Q_scope.

Lemma Finite_Qred_eq (a b : Q) : a == b → Finite (Qred a) = Finite (Qred b).
Proof. intros H. f_equal. by apply Qred_complete. Qed.

Lemma Qzero_spec (q : Q) : Qzero q = true ↔ q == 0.
Proof.
  unfold Qzero, Qeq. destruct q as [n d]; simpl.
  rewrite Z.eqb_eq. lia.
Qed.

Lemma Qzero_false (q : Q) : Qzero q = false ↔ ¬ q == 0.
Proof.
  rewrite <- Qzero_spec. destruct (Qzero q); split; congruence.
Qed.

Lemma Qneg_spec (q : Q) : Qneg q = true ↔ q < 0.
Proof.
  unfold Qneg, Qlt. destruct q as [n d]; simpl.
  rewrite Z.ltb_lt. lia.
Qed.

Lemma Qneg_false (q : Q) : Qneg q = false ↔ 0 <= q.
Proof.
  unfold Qneg, Qle. destruct q as [n d]; simpl.
  rewrite Z.ltb_ge. lia.
Qed.

Lemma lt_Finite (a b : Q) : Number.lt (Finite a) (Finite b) = true ↔ a < b.
Proof.
  simpl. rewrite Qlt_alt. destruct (a ?= b); split; congruence.
Qed.

Lemma lt_Finite_false (a b : Q) : Number.lt (Finite a) (Finite b) = false ↔ b <= a.
Proof.
  simpl. rewrite Qle_alt, <- Qcompare_antisym.
  destruct (b ?= a); simpl; split; intros H; try done.
Qed.

Lemma strict_eq_Finite (a b : Q) : Number.strict_eq (Finite a) (Finite b) = true ↔ a == b.
Proof. simpl. apply Qeq_bool_iff. Qed.

Lemma le_Finite (a b : Q) : Number.le (Finite a) (Finite b) = true ↔ a <= b.
Proof.
  unfold Number.le. rewrite orb_true_iff, lt_Finite, strict_eq_Finite. split.
  - intros [H | H]; [lra | rewrite H; lra].
  - intros H. destruct (Qlt_le_dec a b) as [Hlt | Hge]; [by left |].
    right. lra.
Qed.

Lemma div_Finite (a b : Q) : ¬ b == 0 → (Finite a / Finite b)%num = Finite (Qred (a / b)).
Proof. intros H. simpl. apply Qzero_false in H. by rewrite H. Qed.

End NumberFacts.

(** ** Printing and reading digits *)

Section TextFacts.

Local Open Scope Z_scope.
Local Open Scope string_scope.

Lemma digit_char_spec (d : Z) :
  0 <= d < 10 → is_digit (digit_char d) = true ∧ digit_value (digit_char d) = d.
Proof.
  intros H.
  assert (d = 0 ∨ d = 1 ∨ d = 2 ∨ d = 3 ∨ d = 4 ∨ d = 5 ∨ d = 6 ∨ d = 7
          ∨ d = 8 ∨ d = 9) as Hd by lia.
  repeat destruct Hd as [-> | Hd]; try subst d; split; reflexivity.
Qed.

Lemma append_cons (c : ascii) (s r : string) : String c s ++ r = String c (s ++ r).
Proof. reflexivity. Qed.

Lemma read_digits_fixed_width (k : nat) (n : Z) (rest : string) (acc : Z) (count : nat) :
  read_digits (fixed_width k n ++ rest) acc count
  = read_digits rest (acc * 10 ^ Z.of_nat k + n mod 10 ^ Z.of_nat k) (count + k).
Proof.
  revert acc count. induction k as [| k IH]; intros acc count.
  - simpl. rewrite Z.mod_1_r, Nat.add_0_r. f_equal. lia.
  - cbn [fixed_width]. rewrite append_cons. cbn [read_digits].
    destruct (digit_char_spec ((n / 10 ^ Z.of_nat k) mod 10)) as [-> ->].
    { apply Z.mod_pos_bound. lia. }
    rewrite IH. f_equal; [| lia].
    rewrite Nat2Z.inj_succ, Z.pow_succ_r by lia.
    rewrite (Z.mul_comm 10 (10 ^ Z.of_nat k)), Z.rem_mul_r by lia. ring.
Qed.

Lemma count_digits_bound (fuel : nat) (n : Z) :
  0 <= n < 10 * 10 ^ Z.of_nat fuel → n < 10 ^ Z.of_nat (count_digits fuel n).
Proof.
  revert n. induction fuel as [| fuel IH]; intros n Hn.
  - simpl in *. lia.
  - cbn [count_digits]. destruct (Z.ltb_spec n 10) as [Hlt | Hge].
    + simpl. lia.
    + rewrite Nat2Z.inj_succ, Z.pow_succ_r by lia.
      rewrite Nat2Z.inj_succ, Z.pow_succ_r in Hn by lia.
      assert (n / 10 < 10 ^ Z.of_nat (count_digits fuel (n / 10))) as Hq.
      { apply IH. split; [apply Z.div_pos; lia |].
        apply Z.div_lt_upper_bound; lia. }
      pose proof (Z.mul_div_le n 10 ltac:(lia)).
      pose proof (Z.mod_pos_bound n 10 ltac:(lia)).
      pose proof (Z.div_mod n 10 ltac:(lia)). lia.
Qed.

Lemma decimal_length_bound (n : Z) : 0 <= n → n < 10 ^ Z.of_nat (decimal_length n).
Proof.
  intros Hn. apply count_digits_bound. split; [done |].
  destruct (Z.eq_dec n 0) as [-> | Hne]; [simpl; lia |].
  rewrite Z2Nat.id by apply Z.log2_nonneg.
  pose proof (Z.log2_spec n ltac:(lia)) as [_ Hup].
  assert (2 ^ Z.log2 n <= 10 ^ Z.log2 n).
  { apply Z.pow_le_mono_l. lia. }
  rewrite Z.pow_succ_r in Hup by apply Z.log2_nonneg. lia.
Qed.

Lemma decimal_length_pos (n : Z) : ∃ k, decimal_length n = S k.
Proof.
  unfold decimal_length. destruct (Z.to_nat (Z.log2 n)) as [| fuel]; simpl; [by eexists |].
  destruct (n <? 10)%Z; by eexists.
Qed.

(** The decimal representation has no leading zero. *)
Lemma count_digits_tight (fuel : nat) (n : Z) :
  0 < n → 10 ^ Z.of_nat (count_digits fuel n) <= 10 * n.
Proof.
  revert n. induction fuel as [| fuel IH]; intros n Hn.
  - simpl. lia.
  - cbn [count_digits]. destruct (Z.ltb_spec n 10) as [Hlt | Hge]; [simpl; lia |].
    rewrite Nat2Z.inj_succ, Z.pow_succ_r by lia.
    assert (0 < n / 10) as Hq by (apply Z.div_str_pos; lia).
    specialize (IH _ Hq).
    pose proof (Z.mul_div_le n 10 ltac:(lia)). lia.
Qed.

Lemma decimal_length_tight (n : Z) :
  0 < n → 10 ^ Z.of_nat (decimal_length n) <= 10 * n.
Proof. apply count_digits_tight. Qed.

Lemma read_digits_decimal (n : Z) (rest : string) :
  0 <= n →
  read_digits (decimal n ++ rest) 0 0 = read_digits rest n (decimal_length n).
Proof.
  intros Hn. unfold decimal. rewrite read_digits_fixed_width.
  rewrite Z.mod_small by (split; [done | by apply decimal_length_bound]).
  f_equal.
Qed.

Lemma decimal_head (n : Z) :
  ∃ d s, 0 <= d < 10 ∧ decimal n = String (digit_char d) s.
Proof.
  unfold decimal. destruct (decimal_length_pos n) as [k ->].
  cbn [fixed_width]. eexists _, _. split; [| reflexivity].
  apply Z.mod_pos_bound. lia.
Qed.

End TextFacts.

(** ** [parseFloat] reads back what [toFixed] prints *)

Section RoundTrip.

Local Open Scope Q_scope.
Local Open Scope string_scope.

Lemma append_empty (s : string) : s ++ "" = s.
Proof. induction s as [| c s IH]; [done |]. rewrite append_cons. by rewrite IH. Qed.

Lemma Qfloor_half_nonneg (x : Q) : 0 <= x → (0 <= Qfloor (x + (1 # 2)))%Z.
Proof.
  intros Hx. change 0%Z with (Qfloor 0). apply Qfloor_resp_le. lra.
Qed.

Lemma read_decimal_integer (n : Z) :
  (0 <= n)%Z → read_decimal (decimal n) = Finite (Qred (inject_Z n)).
Proof.
  intros Hn. unfold read_decimal.
  rewrite <- (append_empty (decimal n)), read_digits_decimal by done.
  destruct (decimal_length_pos n) as [k ->]. cbn.
  apply Finite_Qred_eq. unfold Qdiv. rewrite Qmult_0_l. ring.
Qed.

Lemma read_digits_dot (r : string) (acc : Z) (count : nat) :
  read_digits (String "." r) acc count = (acc, count, String "." r).
Proof. reflexivity. Qed.

Lemma read_decimal_fraction (a b : Z) (f : nat) :
  (0 <= a)%Z → (0 <= b < 10 ^ Z.of_nat f)%Z →
  read_decimal (decimal a ++ "." ++ fixed_width f b)
  = Finite (Qred (inject_Z a + inject_Z b / inject_Z (10 ^ Z.of_nat f))).
Proof.
  intros Ha Hb. unfold read_decimal.
  rewrite read_digits_decimal by done.
  change ("." ++ fixed_width f b) with (String "." (fixed_width f b)).
  rewrite read_digits_dot.
  rewrite <- (append_empty (fixed_width f b)), read_digits_fixed_width.
  cbn [read_digits]. rewrite Z.mul_0_l, Z.add_0_l, Nat.add_0_l.
  rewrite Z.mod_small by done.
  destruct (decimal_length_pos a) as [k ->]. cbn [Nat.add Nat.eqb read_exponent].
  apply Finite_Qred_eq. change (10 ^ 0) with 1. ring.
Qed.

Lemma read_signed_digit (d : Z) (s : string) :
  (0 <= d < 10)%Z →
  let m := String (digit_char d) s in
  read_signed (trim_start m) = read_decimal m
  ∧ read_signed (trim_start (String "-" m)) = Number.neg (read_decimal m).
Proof.
  intros H.
  assert (d = 0 ∨ d = 1 ∨ d = 2 ∨ d = 3 ∨ d = 4 ∨ d = 5 ∨ d = 6 ∨ d = 7
          ∨ d = 8 ∨ d = 9)%Z as Hd by lia.
  repeat destruct Hd as [-> | Hd]; try subst d; split; reflexivity.
Qed.

Lemma toFixed_digits (n : Z) (f : nat) :
  (0 <= n)%Z →
  let scale := (10 ^ Z.of_nat f)%Z in
  let m := match f with
           | O => decimal n
           | _ => decimal (n / scale) ++ "." ++ fixed_width f (n mod scale)
           end in
  read_decimal m = Finite (Qred (inject_Z n / inject_Z scale))
  ∧ ∃ d s, (0 <= d < 10)%Z ∧ m = String (digit_char d) s.
Proof.
  intros Hn scale m.
  assert (0 < scale)%Z as Hscale by (apply Z.pow_pos_nonneg; lia).
  destruct f as [| f]; subst m.
  - split; [| apply decimal_head].
    rewrite read_decimal_integer by done. apply Finite_Qred_eq.
    change scale with 1%Z. field.
  - split.
    + rewrite read_decimal_fraction.
      * apply Finite_Qred_eq. fold scale.
        rewrite (Z.div_mod n scale) at 3 by lia.
        rewrite inject_Z_plus, inject_Z_mult. field.
        intros H0. apply (inject_Z_injective scale 0) in H0. lia.
      * apply Z.div_pos; lia.
      * apply Z.mod_pos_bound. lia.
    + destruct (decimal_head (n / scale)) as (d & s & Hd & ->).
      exists d, (s ++ "." ++ fixed_width (S f) (n mod scale)). by split.
Qed.

(** Reading back the result of [toFixed], in every case. *)
Lemma parseFloat_toFixed (x : number) (f : nat) :
  parseFloat (toFixed x f) = toFixed_number x f.
Proof.
  destruct x as [| [|] | q]; try reflexivity.
  unfold toFixed, toFixed_number.
  destruct (Qle_bool (inject_Z (10 ^ 21)) (Qabs q)); [reflexivity |].
  cbv zeta. set (scale := (10 ^ Z.of_nat f)%Z).
  set (n := Qfloor (Qabs q * inject_Z scale + (1 # 2))).
  assert (0 <= n)%Z as Hn.
  { apply Qfloor_half_nonneg. apply Qmult_le_0_compat; [apply Qabs_nonneg |].
    change 0 with (inject_Z 0). rewrite <- Zle_Qle.
    apply Z.lt_le_incl, Z.pow_pos_nonneg; lia. }
  destruct (toFixed_digits n f Hn) as (Hread & d & s & Hd & Hm).
  fold scale in Hread, Hm. cbv zeta in Hread, Hm.
  unfold toFixed_value. fold scale. fold n.
  destruct (read_signed_digit d s Hd) as [Hplus Hminus]. cbv zeta in Hplus, Hminus.
  unfold parseFloat. rewrite Hm in *.
  destruct (Qneg q).
  - change ("-" ++ String (digit_char d) s) with (String "-" (String (digit_char d) s)).
    rewrite Hminus, Hread. cbn [Number.neg]. apply Finite_Qred_eq.
    rewrite Qred_correct. ring.
  - change ("" ++ String (digit_char d) s) with (String (digit_char d) s).
    rewrite Hplus, Hread. apply Finite_Qred_eq. ring.
Qed.

End RoundTrip.

(** ** Rounding *)

Section Rounding.

Local Open Scope Q_scope.

Lemma scale_pos (f : nat) : 0 < inject_Z (10 ^ Z.of_nat f).
Proof.
  change 0 with (inject_Z 0). rewrite <- Zlt_Qlt. apply Z.pow_pos_nonneg; lia.
Qed.

Lemma toFixed_value_rounded (q : Q) (f : nat) : rounded_to f q (toFixed_value q f).
Proof.
  unfold rounded_to, toFixed_value.
  set (s := inject_Z (10 ^ Z.of_nat f)). pose proof (scale_pos f) as Hs. fold s in Hs.
  set (n := Qfloor (Qabs q * s + (1 # 2))).
  pose proof (Qfloor_le (Qabs q * s + (1 # 2))) as Hlo.
  pose proof (Qlt_floor (Qabs q * s + (1 # 2))) as Hhi.
  fold n in Hlo, Hhi. rewrite inject_Z_plus in Hhi. change (inject_Z 1) with 1 in Hhi.
  assert (Qabs (inject_Z n / s - Qabs q) <= 1 / (2 * s)) as Hclose.
  { apply Qabs_Qle_condition. split.
    -       assert (- (1 / (2 * s)) == - (1 # 2) / s) as -> by (field; lra).
      assert (inject_Z n / s - Qabs q == (inject_Z n - Qabs q * s) / s) as ->
        by (field; lra).
      apply Qle_shift_div_l; [done |].
      assert (- (1 # 2) / s * s == - (1 # 2)) as -> by (field; lra). lra.
    - assert (1 / (2 * s) == (1 # 2) / s) as -> by (field; lra).
      assert (inject_Z n / s - Qabs q == (inject_Z n - Qabs q * s) / s) as ->
        by (field; lra).
      apply Qle_shift_div_r; [done |].
      assert ((1 # 2) / s * s == 1 # 2) as -> by (field; lra). lra. }
  destruct (Qneg q) eqn:Hneg.
  - apply Qneg_spec in Hneg. split.
    + exists (- n)%Z. rewrite inject_Z_opp. field. lra.
    + pose proof (Qabs_neg q ltac:(lra)) as Ha. rewrite Ha in Hclose.
      assert (- (1) * (inject_Z n / s) - q == - (inject_Z n / s - - q)) as -> by ring.
      by rewrite Qabs_opp.
  - apply Qneg_false in Hneg. split.
    + exists n. field. lra.
    + pose proof (Qabs_pos q Hneg) as Ha. rewrite Ha in Hclose.
      assert (1 * (inject_Z n / s) - q == inject_Z n / s - q) as -> by ring. done.
Qed.

(** The integer that [toFixed] prints is half a unit away at most. *)
Lemma Qfloor_half_close (a s : Q) :
  0 < s → Qabs (inject_Z (Qfloor (a * s + (1 # 2))) / s - a) <= 1 / (2 * s).
Proof.
  intros Hs. set (n := Qfloor (a * s + (1 # 2))).
  pose proof (Qfloor_le (a * s + (1 # 2))) as Hlo.
  pose proof (Qlt_floor (a * s + (1 # 2))) as Hhi.
  fold n in Hlo, Hhi. rewrite inject_Z_plus in Hhi. change (inject_Z 1) with 1 in Hhi.
  apply Qabs_Qle_condition. split.
  - assert (- (1 / (2 * s)) == - (1 # 2) / s) as -> by (field; lra).
    assert (inject_Z n / s - a == (inject_Z n - a * s) / s) as -> by (field; lra).
    apply Qle_shift_div_l; [done |].
    assert (- (1 # 2) / s * s == - (1 # 2)) as -> by (field; lra). lra.
  - assert (1 / (2 * s) == (1 # 2) / s) as -> by (field; lra).
    assert (inject_Z n / s - a == (inject_Z n - a * s) / s) as -> by (field; lra).
    apply Qle_shift_div_r; [done |].
    assert ((1 # 2) / s * s == 1 # 2) as -> by (field; lra). lra.
Qed.

(** Below [10^21] the string that [toFixed] makes is the notation, with
    [f] decimals, of an integer number of units of the last place that is
    at most half a unit away from the magnitude of the number. *)
Lemma toFixed_notation (q : Q) (f : nat) :
  Qabs q < inject_Z (10 ^ 21) →
  ∃ n : Z,
    (0 <= n)%Z
    ∧ toFixed (Finite q) f = Chars (decimal_notation (Qneg q) n f)
    ∧ Qabs (inject_Z n / inject_Z (10 ^ Z.of_nat f) - Qabs q)
      <= 1 / (2 * inject_Z (10 ^ Z.of_nat f)).
Proof.
  intros Hq. pose proof (scale_pos f) as Hs.
  exists (Qfloor (Qabs q * inject_Z (10 ^ Z.of_nat f) + (1 # 2))).
  split; [| split].
  - apply Qfloor_half_nonneg. apply Qmult_le_0_compat; [apply Qabs_nonneg | lra].
  - unfold toFixed.
    destruct (Qle_bool (inject_Z (10 ^ 21)) (Qabs q)) eqn:Hbig; [| reflexivity].
    apply Qle_bool_iff in Hbig. lra.
  - by apply Qfloor_half_close.
Qed.

(** The notation reads back as the number it stands for. *)
Lemma decimal_notation_reads (negative : bool) (n : Z) (f : nat) :
  (0 <= n)%Z →
  parseFloat (Chars (decimal_notation negative n f))
  = Finite (Qred ((if negative then - (1) else 1)
                  * (inject_Z n / inject_Z (10 ^ Z.of_nat f)))).
Proof.
  intros Hn. unfold decimal_notation, parseFloat. cbv zeta.
  destruct (toFixed_digits n f Hn) as (Hread & d & s & Hd & Hm).
  cbv zeta in Hread, Hm.
  destruct (read_signed_digit d s Hd) as [Hplus Hminus]. cbv zeta in Hplus, Hminus.
  rewrite Hm in *. destruct negative.
  - change ("-" ++ String (digit_char d) s)%string
      with (String "-" (String (digit_char d) s)).
    rewrite Hminus, Hread. cbn [Number.neg]. apply Finite_Qred_eq.
    rewrite Qred_correct. ring.
  - change ("" ++ String (digit_char d) s)%string with (String (digit_char d) s).
    rewrite Hplus, Hread. apply Finite_Qred_eq. ring.
Qed.

(** Rounding to [f] decimals keeps the order of numbers that are not
    negative. *)
Lemma toFixed_value_mono (q1 q2 : Q) (f : nat) :
  0 <= q1 → q1 <= q2 → toFixed_value q1 f <= toFixed_value q2 f.
Proof.
  intros H1 H12. assert (0 <= q2) as H2 by lra.
  unfold toFixed_value.
  rewrite (proj2 (Qneg_false q1) H1), (proj2 (Qneg_false q2) H2).
  pose proof (scale_pos f) as Hs. set (s := inject_Z (10 ^ Z.of_nat f)) in *.
  assert (Qfloor (Qabs q1 * s + (1 # 2)) <= Qfloor (Qabs q2 * s + (1 # 2)))%Z as Hn.
  { apply Qfloor_resp_le. rewrite (Qabs_pos q1 H1), (Qabs_pos q2 H2).
    assert (q1 * s <= q2 * s) by (apply Qmult_le_compat_r; lra). lra. }
  rewrite Zle_Qle in Hn. rewrite !Qmult_1_l.
  apply Qmult_le_compat_r; [done |]. apply Qinv_le_0_compat. lra.
Qed.

Lemma toFixed_value_below (q : Q) (f : nat) (N : Z) :
  0 <= q → q < inject_Z N → toFixed_value q f <= inject_Z N.
Proof.
  intros H0 HN. unfold toFixed_value. rewrite (proj2 (Qneg_false q) H0).
  pose proof (scale_pos f) as Hs. set (S := (10 ^ Z.of_nat f)%Z) in *.
  set (n := Qfloor (Qabs q * inject_Z S + (1 # 2))).
  assert (n <= N * S)%Z as Hn.
  { apply Z.lt_succ_r. rewrite Zlt_Qlt.
    pose proof (Qfloor_le (Qabs q * inject_Z S + (1 # 2))) as Hlo. fold n in Hlo.
    rewrite (Qabs_pos q H0) in Hlo.
    unfold Z.succ. rewrite inject_Z_plus, inject_Z_mult. change (inject_Z 1) with 1.
    assert (q * inject_Z S < inject_Z N * inject_Z S)
      by (apply Qmult_lt_compat_r; lra).
    lra. }
  rewrite Zle_Qle, inject_Z_mult in Hn. rewrite Qmult_1_l.
  apply Qle_shift_div_r; [done |]. lra.
Qed.

Lemma toFixed_number_mono (q1 q2 : Q) (f : nat) :
  0 <= q1 → q1 <= q2 →
  Number.le (toFixed_number (Finite q1) f) (toFixed_number (Finite q2) f) = true.
Proof.
  intros H1 H12. assert (0 <= q2) as H2 by lra. unfold toFixed_number.
  destruct (Qle_bool (inject_Z (10 ^ 21)) (Qabs q1)) eqn:Hb1;
    destruct (Qle_bool (inject_Z (10 ^ 21)) (Qabs q2)) eqn:Hb2;
    apply le_Finite; rewrite !Qred_correct.
  - done.
  - apply Qle_bool_iff in Hb1.
    assert (¬ inject_Z (10 ^ 21) <= Qabs q2) as Hn2.
    { intros H. apply Qle_bool_iff in H. congruence. }
    rewrite (Qabs_pos q1 H1) in Hb1. rewrite (Qabs_pos q2 H2) in Hn2. lra.
  - apply Qle_bool_iff in Hb2. rewrite (Qabs_pos q2 H2) in Hb2.
    assert (¬ inject_Z (10 ^ 21) <= Qabs q1) as Hn1.
    { intros H. apply Qle_bool_iff in H. congruence. }
    rewrite (Qabs_pos q1 H1) in Hn1.
    pose proof (toFixed_value_below q1 f (10 ^ 21) H1 ltac:(lra)). lra.
  - by apply toFixed_value_mono.
Qed.

(** [Math.round] gives the nearest integer. *)
Lemma round_rounded (q : Q) :
  ∃ z : Z, Number.round (Finite q) = Finite (inject_Z z) ∧ Qabs (inject_Z z - q) <= 1 # 2.
Proof.
  exists (Qfloor (q + (1 # 2))). split; [reflexivity |].
  pose proof (Qfloor_le (q + (1 # 2))) as Hlo.
  pose proof (Qlt_floor (q + (1 # 2))) as Hhi.
  rewrite inject_Z_plus in Hhi. change (inject_Z 1) with 1 in Hhi.
  apply Qabs_Qle_condition. split; lra.
Qed.

Lemma toFixed_number_finite (q : Q) (f : nat) :
  ∃ v, toFixed_number (Finite q) f = Finite v.
Proof.
  unfold toFixed_number. destruct (Qle_bool _ _); by eexists.
Qed.

(** Below [10^21] the number read back is the rounding to [f] decimals. *)
Lemma toFixed_number_rounded (q : Q) (f : nat) :
  Qabs q < inject_Z (10 ^ 21) →
  ∃ v, toFixed_number (Finite q) f = Finite v ∧ rounded_to f q v.
Proof.
  intros Hq. unfold toFixed_number.
  destruct (Qle_bool (inject_Z (10 ^ 21)) (Qabs q)) eqn:Hbig.
  - apply Qle_bool_iff in Hbig. lra.
  - eexists. split; [reflexivity |].
    destruct (toFixed_value_rounded q f) as [[n Hn] Hclose].
    split.
    + exists n. by rewrite Qred_correct.
    + by rewrite Qred_correct.
Qed.

End Rounding.

(** ** The order on numbers *)

Section Order.

Local Open Scope Q_scope.

(** The sign of a difference is the comparison of the operands. *)
Lemma sub_gt_0 (x y : number) : Number.gt (Number.sub x y) (Finite 0) = Number.lt y x.
Proof.
  destruct x as [| [|] | a], y as [| [|] | b]; try reflexivity.
  unfold Number.gt, Number.sub.
    destruct (Number.lt (Finite b) (Finite a)) eqn:Hlt.
  - apply lt_Finite. apply lt_Finite in Hlt. rewrite Qred_correct. lra.
  - apply lt_Finite_false. apply lt_Finite_false in Hlt. rewrite Qred_correct. lra.
Qed.

Lemma lt_irrefl (x : number) : Number.lt x x = false.
Proof.
  destruct x as [| [|] | a]; try done.
  apply lt_Finite_false. lra.
Qed.

Lemma lt_asym (x y : number) : Number.lt x y = true → Number.lt y x = false.
Proof.
  destruct x as [| [|] | a], y as [| [|] | b]; try done.
  rewrite lt_Finite, lt_Finite_false. lra.
Qed.

(** Without [NaN], "not less than" is transitive. *)
Lemma lt_false_trans (x y z : number) :
  Number.is_nan y = false →
  Number.lt y x = false → Number.lt z y = false → Number.lt z x = false.
Proof.
  destruct x as [| [|] | a], y as [| [|] | b], z as [| [|] | c]; try done.
  rewrite !lt_Finite_false. lra.
Qed.

(** On numbers other than [NaN], "not greater" is "less or equal". *)
Lemma lt_false_le (x y : number) :
  Number.is_nan x = false → Number.is_nan y = false →
  Number.lt y x = false → Number.le x y = true.
Proof.
  unfold Number.le.
  destruct x as [| [|] | a], y as [| [|] | b]; try done.
  intros _ _ H. apply lt_Finite_false in H.
  destruct (Number.lt (Finite a) (Finite b)) eqn:Hlt; [done |].
  apply lt_Finite_false in Hlt. simpl. apply Qeq_bool_iff. lra.
Qed.

End Order.

(** ** Sorting *)

Section Sorting.

Context {A : Type} (key : A → number).

Lemma insert_sorted_head (x y : A) (l : list A) :
  insert_sorted (by_key key) x (y :: l)
  = if Number.lt (key y) (key x) then y :: insert_sorted (by_key key) x l else x :: y :: l.
Proof. cbn [insert_sorted]. unfold by_key. by rewrite sub_gt_0. Qed.

Lemma insert_sorted_Permutation (x : A) (l : list A) :
  Permutation (insert_sorted (by_key key) x l) (x :: l).
Proof.
  induction l as [| y l IH]; [done |].
  cbn [insert_sorted]. destruct (Number.gt _ _); [| done].
  rewrite IH. apply perm_swap.
Qed.

(** Sorting only rearranges the elements. *)
Lemma sorted_Permutation (l : list A) : Permutation (sorted (by_key key) l) l.
Proof.
  induction l as [| x l IH]; [done |].
  cbn [sorted]. rewrite insert_sorted_Permutation. by constructor.
Qed.

Lemma sorted_nil_inv (l : list A) : sorted (by_key key) l = [] → l = [].
Proof.
  intros H. apply Permutation_nil. rewrite <- H. apply sorted_Permutation.
Qed.

(** The first element after sorting is the first element of least key. *)
Lemma sorted_head (l : list A) (b : A) (rest : list A) :
  (∀ x, x ∈ l → Number.is_nan (key x) = false) →
  sorted (by_key key) l = b :: rest →
  ∃ i, l !! i = Some b
       ∧ (∀ x, x ∈ l → Number.lt (key x) (key b) = false)
       ∧ (∀ j x, l !! j = Some x → (j < i)%nat → Number.lt (key b) (key x) = true).
Proof.
  revert b rest. induction l as [| x l IH]; intros b rest Hnan Hsort; [done |].
  cbn [sorted] in Hsort.
  destruct (sorted (by_key key) l) as [| b' rest'] eqn:Hl.
  - apply sorted_nil_inv in Hl. subst l. cbn in Hsort. injection Hsort as <- <-.
    exists 0%nat. split; [done |]. split.
    + intros y Hy. apply list_elem_of_singleton in Hy as ->. apply lt_irrefl.
    + intros j y _ Hj. lia.
  - destruct (IH b' rest') as (i & Hi & Hmin & Hbefore); [| done |].
    { intros y Hy. apply Hnan. by right. }
    rewrite insert_sorted_head in Hsort.
    destruct (Number.lt (key b') (key x)) eqn:Hlt.
    + injection Hsort as <- <-. exists (S i). split; [done |]. split.
      * intros y Hy. apply elem_of_cons in Hy as [-> | Hy]; [by apply lt_asym | by apply Hmin].
      * intros [| j] y Hy Hj; cbn in Hy.
        -- by injection Hy as <-.
        -- apply (Hbefore j); [done | lia].
    + injection Hsort as <- <-. exists 0%nat. split; [done |]. split.
      * intros y Hy. apply elem_of_cons in Hy as [-> | Hy]; [apply lt_irrefl |].
        apply (lt_false_trans _ (key b')); [| done | by apply Hmin].
        apply Hnan. right. by apply list_elem_of_lookup_2 in Hi.
      * intros j y _ Hj. lia.
Qed.

Lemma insert_sorted_HdRel (R : A → A → Prop) (a x : A) (l : list A) :
  R a x → HdRel R a l → HdRel R a (insert_sorted (by_key key) x l).
Proof.
  intros Hx Hl. destruct l as [| y l]; cbn [insert_sorted]; [by constructor |].
  destruct (Number.gt _ _); constructor; [by inversion Hl | done].
Qed.

Lemma insert_sorted_Sorted (x : A) (l : list A) :
  Sorted (λ a b, Number.lt (key b) (key a) = false) l →
  Sorted (λ a b, Number.lt (key b) (key a) = false) (insert_sorted (by_key key) x l).
Proof.
  induction l as [| y l IH]; intros Hl; [repeat constructor |].
  rewrite insert_sorted_head. inversion Hl as [| ? ? Hl' Hhd]; subst.
  destruct (Number.lt (key y) (key x)) eqn:Hlt.
  - constructor; [by apply IH |].
    apply insert_sorted_HdRel; [by apply lt_asym | done].
  - constructor; [done | by constructor].
Qed.

(** The result of sorting is ordered: no element has a smaller key than
    the one before it. *)
Lemma sorted_Sorted (l : list A) :
  Sorted (λ a b, Number.lt (key b) (key a) = false) (sorted (by_key key) l).
Proof.
  induction l as [| x l IH]; [constructor |].
  cbn [sorted]. by apply insert_sorted_Sorted.
Qed.

(** When no two elements compare, sorting leaves the order as it is. *)
Lemma sorted_incomparable (l : list A) :
  (∀ x, x ∈ l → key x = NaN) → sorted (by_key key) l = l.
Proof.
  induction l as [| x l IH]; intros Hnan; [done |].
  cbn [sorted]. rewrite IH by (intros y Hy; apply Hnan; by right).
  destruct l as [| y l]; [done |].
  rewrite insert_sorted_head, (Hnan y) by (right; by left). done.
Qed.

End Sorting.

(** ** Stable sorts *)

Section Stability.

Context {A : Type} (key : A → number).

Lemma precedes_asym (a b : nat * A) : precedes key a b → precedes key b a → a = b.
Proof.
  intros [Hab | [Hab Hi]] [Hba | [Hba Hj]].
  - apply lt_asym in Hab. congruence.
  - congruence.
  - congruence.
  - lia.
Qed.

Lemma insert_sorted_untag (x : nat * A) (t : list (nat * A)) :
  (insert_sorted (by_key (key ∘ snd)) x t).*2 = insert_sorted (by_key key) x.2 t.*2.
Proof.
  induction t as [| y t IH]; [done |].
  cbn [insert_sorted fmap list_fmap]. unfold by_key at 1 3. cbn [compose].
  destruct (Number.gt _ _); cbn [fmap list_fmap]; [| done].
  f_equal. apply IH.
Qed.

Lemma sorted_untag (t : list (nat * A)) :
  (sorted (by_key (key ∘ snd)) t).*2 = sorted (by_key key) t.*2.
Proof.
  induction t as [| x t IH]; [done |].
  cbn [sorted fmap list_fmap]. by rewrite insert_sorted_untag, IH.
Qed.

Lemma insert_sorted_precedes (x : nat * A) (t : list (nat * A)) :
  (∀ y, y ∈ t → Number.is_nan (key y.2) = false) →
  (∀ y, y ∈ t → (x.1 < y.1)%nat) →
  StronglySorted (precedes key) t →
  StronglySorted (precedes key) (insert_sorted (by_key (key ∘ snd)) x t).
Proof.
  intros Hnan Hfirst Hsorted.
  induction Hsorted as [| y t Ht IH Hy]; [repeat constructor |].
  rewrite (insert_sorted_head (key ∘ snd)). cbn [compose].
  destruct (Number.lt (key y.2) (key x.2)) eqn:Hlt.
  - constructor.
    + apply IH; intros z Hz; [apply Hnan | apply Hfirst]; by right.
    + apply Forall_forall. intros z Hz.
      rewrite (insert_sorted_Permutation (key ∘ snd)) in Hz.
      apply elem_of_cons in Hz as [-> | Hz]; [by left |].
      rewrite Forall_forall in Hy. by apply Hy.
  - constructor; [by constructor |].
    apply Forall_forall. intros z Hz. right. split; [| by apply Hfirst].
    apply elem_of_cons in Hz as [-> | Hz]; [done |].
    apply (lt_false_trans _ (key y.2)); [apply Hnan; by left | done |].
    rewrite Forall_forall in Hy.
    destruct (Hy z Hz) as [Hyz | [Hzy _]]; [by apply lt_asym | done].
Qed.

Lemma sorted_tagged (l : list A) (n : nat) :
  (∀ x, x ∈ l → Number.is_nan (key x) = false) →
  StronglySorted (precedes key)
    (sorted (by_key (key ∘ snd)) (imap (λ i x, ((n + i)%nat, x)) l)).
Proof.
  revert n. induction l as [| x l IH]; intros n Hnan; [constructor |].
  cbn [imap sorted].
  assert (imap ((λ i y, ((n + i)%nat, y)) ∘ S) l = imap (λ i y, ((S n + i)%nat, y)) l)
    as -> by (apply imap_ext; intros; cbn; f_equal; lia).
  apply insert_sorted_precedes.
  - intros y Hy. rewrite (sorted_Permutation (key ∘ snd)) in Hy.
    apply elem_of_lookup_imap in Hy as (i & z & -> & Hz).
    apply Hnan. right. by apply list_elem_of_lookup_2 in Hz.
  - intros y Hy. rewrite (sorted_Permutation (key ∘ snd)) in Hy.
    apply elem_of_lookup_imap in Hy as (i & z & -> & Hz). cbn. lia.
  - apply IH. intros y Hy. apply Hnan. by right.
Qed.

Lemma untag_imap (f : nat → A → nat * A) (l : list A) :
  (∀ i x, (f i x).2 = x) → (imap f l).*2 = l.
Proof.
  revert f. induction l as [| x l IH]; intros f Hf; [done |].
  cbn [imap fmap list_fmap]. rewrite Hf. f_equal. apply IH. intros i y. apply Hf.
Qed.

(** The insertion sort is a stable sort. *)
Lemma sorted_stable (l : list A) :
  (∀ x, x ∈ l → Number.is_nan (key x) = false) →
  stable_sort_of key l (sorted (by_key key) l).
Proof.
  intros Hnan. exists (sorted (by_key (key ∘ snd)) (imap pair l)).
  split; [apply (sorted_Permutation (key ∘ snd)) |]. split.
  - by apply (sorted_tagged l 0).
  - by rewrite sorted_untag, untag_imap.
Qed.

(** Every stable sort gives the result of the insertion sort. *)
Lemma stable_sort_unique (l l' : list A) :
  (∀ x, x ∈ l → Number.is_nan (key x) = false) →
  stable_sort_of key l l' → l' = sorted (by_key key) l.
Proof.
  intros Hnan (t & Hperm & Hsorted & ->).
  destruct (sorted_stable l Hnan) as (t0 & Hperm0 & Hsorted0 & ->).
  f_equal. apply (StronglySorted_unique_strong (precedes key)); [| done | done |].
  - intros a b _ _. apply precedes_asym.
  - by rewrite Hperm, Hperm0.
Qed.

End Stability.

(** ** The fuel calculation on a vehicle profile *)

Section Engine.

Local Open Scope Q_scope.

(** [calculateFuel] is the composition of its named steps. *)
Lemma calculateFuel_steps (route : Route.t) (vehicleType : string) :
  calculateFuel route vehicleType = calculateFuel_with (resolve vehicleType) route.
Proof. reflexivity. Qed.

Lemma distanceKm_of_Finite (route : Route.t) :
  distanceKm_of route = Finite (Qred (Route.distance route / 1000)).
Proof. reflexivity. Qed.

Lemma durationHr_of_Finite (route : Route.t) :
  durationHr_of route = Finite (Qred (Route.duration route / 3600)).
Proof. reflexivity. Qed.

(** The average speed is a finite number: the quotient when the duration
    is positive, [0] otherwise. *)
Lemma avgSpeed_of_Finite (route : Route.t) :
  ∃ q, avgSpeed_of route = Finite q
       ∧ (0 < Route.duration route →
          q == (Route.distance route / 1000) / (Route.duration route / 3600))
       ∧ (Route.duration route <= 0 → avgSpeed_of route = Finite 0).
Proof.
  unfold avgSpeed_of. rewrite distanceKm_of_Finite, durationHr_of_Finite.
  destruct (Number.gt _ _) eqn:Hgt.
  - apply lt_Finite in Hgt. rewrite Qred_correct in Hgt.
    rewrite div_Finite by (rewrite Qred_correct; qlra).
    eexists. split; [reflexivity |]. split.
    + intros _. by rewrite !Qred_correct.
    + intros Hle. exfalso. qlra.
  - apply lt_Finite_false in Hgt. rewrite Qred_correct in Hgt.
    exists 0. split; [reflexivity |]. split; [| done].
    intros Hpos. exfalso. qlra.
Qed.

Lemma traffic_penalty_Finite (o s : Q) :
  ∃ e, traffic_penalty (Finite o) (Finite s) = Finite (Qred e)
       ∧ e == 1 + (o - s) / 20 * 0.2.
Proof.
  unfold traffic_penalty. cbn [Number.sub]. rewrite div_Finite by lra.
  eexists. split; [reflexivity |]. by rewrite !Qred_correct.
Qed.

Lemma Finite_Qred_one (e : Q) : e == 1 → Finite (Qred e) = Finite 1.
Proof. intros H. by rewrite (Qred_complete _ _ H). Qed.

Lemma highway_penalty_Finite (o s : Q) :
  ∃ e, highway_penalty (Finite o) (Finite s) = Finite (Qred e)
       ∧ e == 1 + (s - o) / 30 * 0.1.
Proof.
  unfold highway_penalty. cbn [Number.sub]. rewrite div_Finite by lra.
  eexists. split; [reflexivity |]. by rewrite !Qred_correct.
Qed.

Lemma efficiencyFactor_below (p : VehicleProfile) (s : Q) :
  s < optimalSpeed p →
  ∃ e, efficiencyFactor_of (Profile p) (Finite s) = Finite (Qred e)
       ∧ e == 1 + (optimalSpeed p - s) / 20 * 0.2.
Proof.
  intros Hs. unfold efficiencyFactor_of. cbn [vehicle_optimalSpeed].
  rewrite (proj2 (lt_Finite _ _) Hs). apply traffic_penalty_Finite.
Qed.

Lemma efficiencyFactor_above (p : VehicleProfile) (s : Q) :
  optimalSpeed p <= s →
  ∃ e, efficiencyFactor_of (Profile p) (Finite s) = Finite (Qred e)
       ∧ e == 1 + (s - optimalSpeed p) / 30 * 0.1.
Proof.
  intros Hs. unfold efficiencyFactor_of. cbn [vehicle_optimalSpeed].
  rewrite (proj2 (lt_Finite_false _ _) Hs). apply highway_penalty_Finite.
Qed.

Lemma efficiencyFactor_Finite (p : VehicleProfile) (s : Q) :
  ∃ e, efficiencyFactor_of (Profile p) (Finite s) = Finite e ∧ 1 <= e.
Proof.
  destruct (Qlt_le_dec s (optimalSpeed p)) as [Hlt | Hge].
  - destruct (efficiencyFactor_below p s Hlt) as (e & He & Hv).
    exists (Qred e). split; [done |]. rewrite Qred_correct. qlra.
  - destruct (efficiencyFactor_above p s Hge) as (e & He & Hv).
    exists (Qred e). split; [done |]. rewrite Qred_correct. qlra.
Qed.

Lemma fuelUsed_of_Finite (p : VehicleProfile) (route : Route.t) :
  ∃ q, fuelUsed_of (Profile p) route = Finite q.
Proof.
  unfold fuelUsed_of. destruct (avgSpeed_of_Finite route) as (s & -> & _).
  destruct (efficiencyFactor_Finite p s) as (e & -> & _).
  rewrite distanceKm_of_Finite. cbn. by eexists.
Qed.

(** On a vehicle profile every figure of [calculateFuel] is a finite number. *)
Lemma calculateFuel_with_Finite (p : VehicleProfile) (route : Route.t) :
  let stats := calculateFuel_with (Profile p) route in
  Number.is_finite (FuelStats.fuelUsed stats) = true
  ∧ Number.is_finite (FuelStats.avgSpeed stats) = true
  ∧ Number.is_finite (FuelStats.efficiencyFactor stats) = true.
Proof.
  cbn zeta. unfold calculateFuel_with. cbn [FuelStats.fuelUsed FuelStats.avgSpeed FuelStats.efficiencyFactor].
  rewrite !parseFloat_toFixed.
  destruct (fuelUsed_of_Finite p route) as (q & ->).
  destruct (avgSpeed_of_Finite route) as (s & -> & _).
  destruct (efficiencyFactor_Finite p s) as (e & -> & _).
  destruct (toFixed_number_finite q 2) as (v & ->).
  destruct (toFixed_number_finite e 2) as (w & ->).
  done.
Qed.

(** On an inherited member of [Object.prototype] the fuel is [NaN]. *)
Lemma calculateFuel_with_Inherited (name : string) (route : Route.t) :
  FuelStats.fuelUsed (calculateFuel_with (Inherited name) route) = NaN.
Proof.
  unfold calculateFuel_with. cbn [FuelStats.fuelUsed]. rewrite parseFloat_toFixed.
  unfold fuelUsed_of. cbn [vehicle_baseConsumption].
  rewrite distanceKm_of_Finite. reflexivity.
Qed.

End Engine.

(** ** Running the endpoint *)

Section Handler.

Implicit Types (h : gmap ref (list ProcessedRoute.t)) (routes : list Route.t).

Lemma fresh_insert_ne h (l : list ProcessedRoute.t) :
  fresh (dom (<[fresh (dom h) := l]> h)) ≠ fresh (dom h).
Proof.
  intros Heq. apply (is_fresh (dom (<[fresh (dom h) := l]> h))).
  rewrite Heq at 1. rewrite dom_insert_L. set_solver.
Qed.

(** One run of [estimate]: [processedRoutes] is allocated at [a1], its copy
    at [a2]; only the copy is sorted. *)
Lemma estimate_run (startCoords endCoords : Coords) routes
    (vehicleType : string) (fuelPrice : option Q) h :
  let annotated := imap (process_route vehicleType fuelPrice) routes in
  let a1 := fresh (dom h) in
  let a2 := fresh (dom (<[a1 := annotated]> h)) in
  let h' := <[a2 := sorted by_fuel annotated]> (<[a1 := annotated]> h) in
  estimate startCoords endCoords routes vehicleType fuelPrice h
  = match sorted by_fuel annotated with
    | first :: _ =>
        (Returned {| status := 200;
                     json := RoutesBody startCoords endCoords annotated
                               (ProcessedRoute.id first) |}, h')
    | [] =>
        (Thrown (TypeError "Cannot read properties of undefined (reading 'id')"), h')
    end.
Proof.
  intros annotated a1 a2 h'.
  assert (a2 ≠ a1) as Hne by apply fresh_insert_ne.
  unfold estimate, Array_map, spread, Array_sort, Array_get, elements_of, new_array,
    get_id, throw, mbind, js_bind, mret, js_ret.
  unfold default, from_option, id. fold annotated. fold a1.
  rewrite !lookup_insert_eq. fold a2. rewrite ?lookup_insert_eq, ?insert_insert_eq.
  fold h'.
  assert (h' !! a1 = Some annotated) as Ha1.
  { unfold h'. by rewrite lookup_insert_ne, lookup_insert_eq. }
  destruct (sorted by_fuel annotated) as [| first rest] eqn:Hs;
    cbn [lookup list_lookup]; [reflexivity |].
  by rewrite Ha1.
Qed.

Lemma sorted_annotated_nonempty routes (vehicleType : string) (fuelPrice : option Q) :
  routes ≠ [] →
  ∃ first rest,
    sorted by_fuel (imap (process_route vehicleType fuelPrice) routes) = first :: rest.
Proof.
  intros Hne.
  destruct (sorted by_fuel (imap (process_route vehicleType fuelPrice) routes))
    as [| first rest] eqn:Hs; [| by eexists _, _].
  apply (sorted_nil_inv ProcessedRoute.fuelUsedLiters) in Hs.
  destruct routes; [done | discriminate].
Qed.

(** For a list with at least one route the endpoint answers with status 200
    and the annotated routes in the order of the input. *)
Lemma calculate_route_run (startCoords endCoords : Coords) routes
    (vehicleType : string) (fuelPrice : option Q) h :
  routes ≠ [] →
  let annotated := imap (process_route vehicleType fuelPrice) routes in
  let a1 := fresh (dom h) in
  let a2 := fresh (dom (<[a1 := annotated]> h)) in
  ∃ first rest,
    sorted by_fuel annotated = first :: rest
    ∧ calculate_route startCoords endCoords (Some routes) vehicleType fuelPrice h
      = (Returned {| status := 200;
                     json := RoutesBody startCoords endCoords annotated
                               (ProcessedRoute.id first) |},
         <[a2 := sorted by_fuel annotated]> (<[a1 := annotated]> h)).
Proof.
  intros Hne annotated a1 a2.
  destruct (sorted_annotated_nonempty routes vehicleType fuelPrice Hne)
    as (first & rest & Hs).
  exists first, rest. split; [done |].
  assert (no_route (Some routes) = false) as Hsome by (by destruct routes).
  unfold calculate_route, try_catch, respond. rewrite Hsome.
  unfold default, from_option, id.
  rewrite estimate_run. cbv zeta. fold annotated a1 a2. unfold annotated at 1.
  by rewrite Hs.
Qed.

(** The elements of the annotated list, by position. *)
Lemma annotated_lookup routes (vehicleType : string) (fuelPrice : option Q)
    (i : nat) (r : ProcessedRoute.t) :
  imap (process_route vehicleType fuelPrice) routes !! i = Some r →
  ∃ route, routes !! i = Some route ∧ r = process_route vehicleType fuelPrice i route.
Proof.
  rewrite list_lookup_imap. destruct (routes !! i) as [route |]; [| done].
  intros [= <-]. by exists route.
Qed.

Lemma annotated_elem routes (vehicleType : string) (fuelPrice : option Q)
    (r : ProcessedRoute.t) :
  r ∈ imap (process_route vehicleType fuelPrice) routes →
  ∃ i route, routes !! i = Some route ∧ r = process_route vehicleType fuelPrice i route.
Proof.
  intros Hr. apply list_elem_of_lookup in Hr as [i Hi].
  apply annotated_lookup in Hi as (route & Hroute & ->). by exists i, route.
Qed.

End Handler.

(** ** The vehicle registry *)

Section Registry.

Lemma VEHICLES_get_motorbike : VEHICLES_get "motorbike" = Some (Profile motorbike).
Proof. reflexivity. Qed.

Lemma VEHICLES_get_car : VEHICLES_get "car" = Some (Profile car).
Proof. reflexivity. Qed.

Lemma VEHICLES_get_truck : VEHICLES_get "truck" = Some (Profile truck).
Proof. reflexivity. Qed.

(** The registered categories resolve to the published parameters. *)
Lemma resolve_registered :
  resolve "motorbike"
  = Profile {| baseConsumption := 2.5; optimalSpeed := 50; dragFactor := 0.05 |}
  ∧ resolve "car"
    = Profile {| baseConsumption := 7.0; optimalSpeed := 80; dragFactor := 0.1 |}
  ∧ resolve "truck"
    = Profile {| baseConsumption := 15.0; optimalSpeed := 70; dragFactor := 0.2 |}.
Proof. repeat split; reflexivity. Qed.

Lemma VEHICLES_lookup_other (key : string) :
  key ≠ "motorbike" → key ≠ "car" → key ≠ "truck" → VEHICLES !! key = None.
Proof.
  intros H1 H2 H3. unfold VEHICLES.
  by rewrite !lookup_insert_ne, lookup_empty.
Qed.

(** A string that is neither a registered category nor the name of a
    member of [Object.prototype] resolves to the car. *)
Lemma resolve_fallback (vehicleType : string) :
  vehicleType ≠ "motorbike" → vehicleType ≠ "car" → vehicleType ≠ "truck" →
  vehicleType ∉ Object_prototype →
  resolve vehicleType = Profile car.
Proof.
  intros H1 H2 H3 Hproto. unfold resolve, VEHICLES_get.
  rewrite VEHICLES_lookup_other by done.
  by rewrite bool_decide_eq_false_2.
Qed.

Lemma resolve_empty_string : resolve "" = Profile car.
Proof. reflexivity. Qed.

(** The name of a member of [Object.prototype] resolves to that member. *)
Lemma resolve_inherited (vehicleType : string) :
  vehicleType ∈ Object_prototype → resolve vehicleType = Inherited vehicleType.
Proof.
  intros Hproto. unfold resolve, VEHICLES_get.
  rewrite VEHICLES_lookup_other.
  - by rewrite bool_decide_eq_true_2.
  - intros ->. by apply (bool_decide_pack _) in Hproto.
  - intros ->. by apply (bool_decide_pack _) in Hproto.
  - intros ->. by apply (bool_decide_pack _) in Hproto.
Qed.

(** Resolution is total: a profile or an inherited member. *)
Lemma resolve_cases (vehicleType : string) :
  (∃ p, resolve vehicleType = Profile p)
  ∨ (vehicleType ∈ Object_prototype ∧ resolve vehicleType = Inherited vehicleType).
Proof.
  unfold resolve, VEHICLES_get.
  destruct (VEHICLES !! vehicleType) as [p |]; [left; by exists p |].
  case_bool_decide; [right; by split | left; by eexists].
Qed.

(** A category that names no inherited member resolves to one of the
    three profiles of the registry. *)
Lemma resolve_to_profile (vehicleType : string) :
  vehicleType ∉ Object_prototype →
  ∃ p, resolve vehicleType = Profile p ∧ (p = motorbike ∨ p = car ∨ p = truck).
Proof.
  intros Hproto. unfold resolve, VEHICLES_get.
  destruct (VEHICLES !! vehicleType) as [p |] eqn:Hp.
  - exists p. split; [done |]. unfold VEHICLES in Hp.
    apply lookup_insert_Some in Hp as [[_ <-] | [_ Hp]]; [by left |].
    apply lookup_insert_Some in Hp as [[_ <-] | [_ Hp]]; [right; by left |].
    apply lookup_insert_Some in Hp as [[_ <-] | [_ Hp]]; [right; by right | done].
  - rewrite bool_decide_eq_false_2 by done. exists car. split; [done |]. right; by left.
Qed.

End Registry.

(** ** The ranking *)

Section Ranking.

Local Open Scope Q_scope.

Implicit Types (h : gmap ref (list ProcessedRoute.t)) (routes : list Route.t).

Lemma lt_NaN_r (x : number) : Number.lt x NaN = false.
Proof. by destruct x as [| [|] |]. Qed.

Lemma lt_strict_eq (x y : number) :
  Number.lt x y = true → Number.strict_eq y x = false.
Proof.
  destruct x as [| [|] | a], y as [| [|] | b]; try done.
  rewrite lt_Finite. intros Hlt.
  destruct (Number.strict_eq (Finite b) (Finite a)) eqn:Heq; [| done].
  apply strict_eq_Finite in Heq. lra.
Qed.

(** The fuel figures of one answer are all finite on a vehicle profile and
    all [NaN] on an inherited member. *)
Lemma annotated_fuel_finite routes (vehicleType : string) (fuelPrice : option Q)
    (p : VehicleProfile) (r : ProcessedRoute.t) :
  resolve vehicleType = Profile p →
  r ∈ imap (process_route vehicleType fuelPrice) routes →
  Number.is_finite (ProcessedRoute.fuelUsedLiters r) = true.
Proof.
  intros Hp Hr. apply annotated_elem in Hr as (i & route & _ & ->).
  cbn [process_route ProcessedRoute.fuelUsedLiters].
  rewrite calculateFuel_steps, Hp. apply calculateFuel_with_Finite.
Qed.

Lemma annotated_fuel_nan routes (vehicleType : string) (fuelPrice : option Q)
    (name : string) (r : ProcessedRoute.t) :
  resolve vehicleType = Inherited name →
  r ∈ imap (process_route vehicleType fuelPrice) routes →
  ProcessedRoute.fuelUsedLiters r = NaN.
Proof.
  intros Hin Hr. apply annotated_elem in Hr as (i & route & _ & ->).
  cbn [process_route ProcessedRoute.fuelUsedLiters].
  rewrite calculateFuel_steps, Hin. apply calculateFuel_with_Inherited.
Qed.

Lemma is_finite_not_nan (x : number) :
  Number.is_finite x = true → Number.is_nan x = false.
Proof. by destruct x. Qed.

(** C1. For every list with at least one route, the [bestFuelRouteId] of
    the answer is the [id] of a returned route such that no returned route
    has a smaller [fuelUsedLiters], and every returned route with the same
    [fuelUsedLiters] has an [id] at least as large: the first of the routes
    of least fuel, in the order of the input.  When the category resolves
    to a vehicle profile the figures are finite and the chosen one is less
    than or equal to each of them. *)
Theorem bestFuelRouteId_first_minimum (startCoords endCoords : Coords) routes
    (vehicleType : string) (fuelPrice : option Q) h :
  routes ≠ [] →
  ∃ rs best h' b,
    calculate_route startCoords endCoords (Some routes) vehicleType fuelPrice h
    = (Returned {| status := 200;
                   json := RoutesBody startCoords endCoords rs best |}, h')
    ∧ rs !! best = Some b
    ∧ ProcessedRoute.id b = best
    ∧ (∀ r, r ∈ rs →
         Number.lt (ProcessedRoute.fuelUsedLiters r) (ProcessedRoute.fuelUsedLiters b)
         = false)
    ∧ (∀ r, r ∈ rs →
         Number.strict_eq (ProcessedRoute.fuelUsedLiters r)
           (ProcessedRoute.fuelUsedLiters b) = true →
         (best <= ProcessedRoute.id r)%nat)
    ∧ ((∃ p, resolve vehicleType = Profile p) →
       ∀ r, r ∈ rs →
         Number.le (ProcessedRoute.fuelUsedLiters b) (ProcessedRoute.fuelUsedLiters r)
         = true).
Proof.
  intros Hne.
  destruct (calculate_route_run startCoords endCoords routes vehicleType fuelPrice h Hne)
    as (first & rest & Hsort & Hrun).
  set (annotated := imap (process_route vehicleType fuelPrice) routes) in *.
  exists annotated, (ProcessedRoute.id first). eexists. exists first.
  split; [exact Hrun |].
  destruct (resolve_cases vehicleType) as [[p Hp] | [_ Hin]].
  - assert (∀ r, r ∈ annotated →
              Number.is_nan (ProcessedRoute.fuelUsedLiters r) = false) as Hnum.
    { intros r Hr. apply is_finite_not_nan.
      by apply (annotated_fuel_finite routes vehicleType fuelPrice p). }
    destruct (sorted_head ProcessedRoute.fuelUsedLiters annotated first rest Hnum Hsort)
      as (i & Hi & Hmin & Hbefore).
    assert (ProcessedRoute.id first = i) as Hid.
    { by apply annotated_lookup in Hi as (route & _ & ->). }
    rewrite Hid. refine (conj Hi (conj eq_refl (conj Hmin (conj _ _)))).
    + intros r Hr Htie. apply list_elem_of_lookup in Hr as [j Hj].
      assert (ProcessedRoute.id r = j) as ->.
      { by apply annotated_lookup in Hj as (route & _ & ->). }
      destruct (Nat.le_gt_cases i j) as [Hle | Hlt]; [done |].
      specialize (Hbefore j r Hj Hlt). apply lt_strict_eq in Hbefore. congruence.
    + intros _ r Hr. apply lt_false_le; [| by apply Hnum | by apply Hmin].
      apply Hnum. by apply list_elem_of_lookup_2 in Hi.
  - assert (∀ r, r ∈ annotated → ProcessedRoute.fuelUsedLiters r = NaN) as Hnan.
    { intros r Hr.
      by apply (annotated_fuel_nan routes vehicleType fuelPrice vehicleType). }
    assert (sorted by_fuel annotated = annotated) as Hsame.
    { by apply (sorted_incomparable ProcessedRoute.fuelUsedLiters). }
    rewrite Hsame in Hsort.
    assert (annotated !! 0%nat = Some first) as H0 by (by rewrite Hsort).
    assert (ProcessedRoute.id first = 0%nat) as Hid.
    { by apply annotated_lookup in H0 as (route & _ & ->). }
    rewrite Hid. refine (conj H0 (conj eq_refl (conj _ (conj _ _)))).
    + intros r Hr. rewrite (Hnan first) by (by apply list_elem_of_lookup_2 in H0).
      apply lt_NaN_r.
    + intros r _ _. lia.
    + intros [p Hp]. congruence.
Qed.

(** An instance: three routes, the last two of equal and least fuel. *)
Lemma bestFuelRouteId_first_minimum_witness :
  ∃ rs best h' b,
    calculate_route origin destination (Some [route_100km; route_90km; route_90km])
      "car" (Some 25000) ∅
    = (Returned {| status := 200; json := RoutesBody origin destination rs best |}, h')
    ∧ rs !! best = Some b
    ∧ ProcessedRoute.id b = best
    ∧ (∀ r, r ∈ rs →
         Number.lt (ProcessedRoute.fuelUsedLiters r) (ProcessedRoute.fuelUsedLiters b)
         = false)
    ∧ (∀ r, r ∈ rs →
         Number.strict_eq (ProcessedRoute.fuelUsedLiters r)
           (ProcessedRoute.fuelUsedLiters b) = true →
         (best <= ProcessedRoute.id r)%nat)
    ∧ ((∃ p, resolve "car" = Profile p) →
       ∀ r, r ∈ rs →
         Number.le (ProcessedRoute.fuelUsedLiters b) (ProcessedRoute.fuelUsedLiters r)
         = true).
Proof.
  apply (bestFuelRouteId_first_minimum origin destination
           [route_100km; route_90km; route_90km] "car" (Some 25000) ∅).
  discriminate.
Defined.

(** In that instance the second route is chosen. *)
Example best_of_three :
  fst (calculate_route origin destination (Some [route_100km; route_90km; route_90km])
         "car" (Some 25000) ∅)
  = Returned {| status := 200;
                json := RoutesBody origin destination
                          (imap (process_route "car" (Some 25000))
                             [route_100km; route_90km; route_90km]) 1 |}.
Proof. vm_compute. reflexivity. Qed.

End Ranking.

(** ** The worked example: a car, 100 km in one hour *)

Section WorkedExample.

Local Open Scope Q_scope.

(** The cost is computed from the fuel after its rounding to two decimals:
    7.47 litres at 25000 a litre, not 7.4666... litres. *)
Example cost_of_rounded_fuel :
  toFixed (Finite 7.47 * Finite 25000) 0 = Chars "186750"
  ∧ toFixed (fuelUsed_of (resolve "car") route_100km * Finite 25000) 0 = Chars "186667".
Proof. split; vm_compute; reflexivity. Qed.

(** C2, as stated, fails: with [fuelPrice = 25000] the [fuelCost] of the
    route is not 186667. *)
Lemma example_car_cost_counterexample :
  ¬ (avgSpeed_of route_100km = Finite 100
     ∧ efficiencyFactor_of (resolve "car") (avgSpeed_of route_100km) = Finite (16 # 15)
     ∧ FuelStats.fuelUsed (calculateFuel route_100km "car") = Finite 7.47
     ∧ ProcessedRoute.fuelCost (process_route "car" (Some 25000) 0 route_100km)
       = Chars "186667").
Proof. intros (_ & _ & _ & Hcost). vm_compute in Hcost. discriminate. Qed.

(** C2, amended. For the route of 100000 m and 3600 s, a car and
    [fuelPrice = 25000]: the average speed is 100, the efficiency factor is
    1 + (20/30) * 0.1 = 16/15 (1.0667 to four decimals, 1.07 as returned),
    [fuelUsedLiters] is 7.47 and [fuelCost] is 7.47 * 25000 = 186750. *)
Theorem example_car_100km :
  avgSpeed_of route_100km = Finite 100
  ∧ efficiencyFactor_of (resolve "car") (avgSpeed_of route_100km) = Finite (16 # 15)
  ∧ Finite (16 # 15) = (Finite 1 + (Finite 20 / Finite 30) * Finite 0.1)%num
  ∧ toFixed (Finite (16 # 15)) 4 = Chars "1.0667"
  ∧ FuelStats.efficiencyFactor (calculateFuel route_100km "car") = Finite 1.07
  ∧ FuelStats.fuelUsed (calculateFuel route_100km "car") = Finite 7.47
  ∧ ProcessedRoute.fuelUsedLiters (process_route "car" (Some 25000) 0 route_100km)
    = Finite 7.47
  ∧ ProcessedRoute.fuelCost (process_route "car" (Some 25000) 0 route_100km)
    = Chars "186750".
Proof. repeat split; vm_compute; reflexivity. Qed.

(** The second worked example: a motorbike, 10 km in half an hour. *)
Example example_motorbike_10km :
  let route := {| Route.distance := 10000; Route.duration := 1800;
                  Route.geometry := line |} in
  avgSpeed_of route = Finite 20
  ∧ efficiencyFactor_of (resolve "motorbike") (avgSpeed_of route) = Finite 1.3
  ∧ fuelUsed_of (resolve "motorbike") route = Finite (13 # 40)
  ∧ FuelStats.fuelUsed (calculateFuel route "motorbike") = Finite 0.33.
Proof. repeat split; vm_compute; reflexivity. Qed.

End WorkedExample.

(** ** The efficiency curve *)

Section EfficiencyCurve.

Local Open Scope Q_scope.

(** C3. For every vehicle profile and every route whose average speed is
    exactly the optimal speed of the profile, the efficiency factor is
    exactly 1, before and after its rounding, and both formulas, the one
    used below the optimal speed and the one used from it on, give 1
    there. *)
Theorem efficiency_at_optimalSpeed (p : VehicleProfile) (route : Route.t) :
  Number.strict_eq (avgSpeed_of route) (Finite (optimalSpeed p)) = true →
  efficiencyFactor_of (Profile p) (avgSpeed_of route) = Finite 1
  ∧ FuelStats.efficiencyFactor (calculateFuel_with (Profile p) route) = Finite 1
  ∧ traffic_penalty (Finite (optimalSpeed p)) (avgSpeed_of route) = Finite 1
  ∧ highway_penalty (Finite (optimalSpeed p)) (avgSpeed_of route) = Finite 1.
Proof.
  intros Heq. destruct (avgSpeed_of_Finite route) as (s & Hs & _).
  rewrite Hs in Heq. apply strict_eq_Finite in Heq.
  assert (efficiencyFactor_of (Profile p) (avgSpeed_of route) = Finite 1) as Heff.
  { rewrite Hs. destruct (efficiencyFactor_above p s) as (e & -> & He); [lra |].
    apply Finite_Qred_one. rewrite He. qlra. }
  split; [done |]. split.
  - unfold calculateFuel_with. cbn [FuelStats.efficiencyFactor]. by rewrite Heff.
  - rewrite Hs. split.
    + destruct (traffic_penalty_Finite (optimalSpeed p) s) as (e & -> & He).
      apply Finite_Qred_one. rewrite He. qlra.
    + destruct (highway_penalty_Finite (optimalSpeed p) s) as (e & -> & He).
      apply Finite_Qred_one. rewrite He. qlra.
Qed.

(** An instance: a car on 80 km in one hour. *)
Lemma efficiency_at_optimalSpeed_witness :
  efficiencyFactor_of (Profile car) (avgSpeed_of route_80km) = Finite 1
  ∧ FuelStats.efficiencyFactor (calculateFuel_with (Profile car) route_80km) = Finite 1
  ∧ traffic_penalty (Finite (optimalSpeed car)) (avgSpeed_of route_80km) = Finite 1
  ∧ highway_penalty (Finite (optimalSpeed car)) (avgSpeed_of route_80km) = Finite 1.
Proof. apply (efficiency_at_optimalSpeed car route_80km). reflexivity. Defined.

(** The value of the efficiency factor on each side of the optimal
    speed. *)
Lemma efficiencyFactor_value (p : VehicleProfile) (s : Q) :
  ∃ e, efficiencyFactor_of (Profile p) (Finite s) = Finite e
       ∧ 1 <= e
       ∧ (s <= optimalSpeed p → e == 1 + (optimalSpeed p - s) / 20 * 0.2)
       ∧ (optimalSpeed p <= s → e == 1 + (s - optimalSpeed p) / 30 * 0.1).
Proof.
  destruct (Qlt_le_dec s (optimalSpeed p)) as [Hlt | Hge].
  - destruct (efficiencyFactor_below p s Hlt) as (e & He & Hv).
    pose proof (Qred_correct e) as Hr.
    exists (Qred e). split; [done |]. split; [qlra |].
    split; intros H; qlra.
  - destruct (efficiencyFactor_above p s Hge) as (e & He & Hv).
    pose proof (Qred_correct e) as Hr.
    exists (Qred e). split; [done |]. split; [qlra |].
    split; intros H; qlra.
Qed.







(** Without the test the quotient would be an infinity, or [NaN] for a
    route of distance 0. *)
Example unguarded_quotient :
  (distanceKm_of route_still / durationHr_of route_still)%num = Infinity false
  ∧ (Finite 0 / Finite 0)%num = NaN.
Proof. split; reflexivity. Qed.

End EfficiencyCurve.

(** ** Resolution of the vehicle category *)

Section Resolution.

(** C6 at the input ["constructor"]: the lookup finds the member
    [constructor] that [VEHICLES] inherits from [Object.prototype]; it is
    truthy, so the fallback to the car is not taken, the profile
    parameters read [undefined] and the fuel figures are [NaN]. *)
Theorem resolve_constructor :
  resolve "constructor" = Inherited "constructor"
  ∧ resolve "constructor" ≠ Profile car
  ∧ vehicle_optimalSpeed (resolve "constructor") = NaN
  ∧ FuelStats.fuelUsed (calculateFuel route_100km "constructor") = NaN
  ∧ ProcessedRoute.fuelCost (process_route "constructor" (Some 25000) 0 route_100km)
    = Chars "NaN".
Proof. repeat split; try discriminate; vm_compute; reflexivity. Qed.

(** The same holds for every property name of [Object.prototype]. *)
Lemma resolve_inherited_not_car (vehicleType : string) :
  vehicleType ∈ Object_prototype → resolve vehicleType ≠ Profile car.
Proof. intros H. by rewrite resolve_inherited. Qed.

End Resolution.

(** ** The answer of the endpoint *)

Section Answer.

Local Open Scope Q_scope.

Implicit Types (h : gmap ref (list ProcessedRoute.t)) (routes : list Route.t).

(** C7. For every list with at least one route, the routes of the answer
    are the annotations of the input routes in the order of the input, the
    one at position [i] with [id = i].  The array [processedRoutes] (at
    [a1]) still holds them in that order after the run: the sort has
    rearranged another array (at [a2]), and the arrays that existed before
    are as they were. *)
Theorem routes_keep_input_order (startCoords endCoords : Coords) routes
    (vehicleType : string) (fuelPrice : option Q) h :
  routes ≠ [] →
  let annotated := imap (process_route vehicleType fuelPrice) routes in
  let a1 := fresh (dom h) in
  let a2 := fresh (dom (<[a1 := annotated]> h)) in
  ∃ best h',
    calculate_route startCoords endCoords (Some routes) vehicleType fuelPrice h
    = (Returned {| status := 200;
                   json := RoutesBody startCoords endCoords annotated best |}, h')
    ∧ length annotated = length routes
    ∧ (∀ i route, routes !! i = Some route →
         ∃ r, annotated !! i = Some r
              ∧ r = process_route vehicleType fuelPrice i route
              ∧ ProcessedRoute.id r = i)
    ∧ a1 ≠ a2
    ∧ h' !! a1 = Some annotated
    ∧ h' !! a2 = Some (sorted by_fuel annotated)
    ∧ (∀ a, a ≠ a1 → a ≠ a2 → h' !! a = h !! a).
Proof.
  intros Hne annotated a1 a2.
  destruct (calculate_route_run startCoords endCoords routes vehicleType fuelPrice h Hne)
    as (first & rest & Hsort & Hrun).
  fold annotated a1 a2 in Hrun.
  assert (a2 ≠ a1) as Hfresh by apply fresh_insert_ne.
  exists (ProcessedRoute.id first). eexists. split; [exact Hrun |].
  split; [apply length_imap |]. split.
  { intros i route Hi. eexists. split; [| done].
    unfold annotated. by rewrite list_lookup_imap, Hi. }
  split; [done |]. split; [by rewrite lookup_insert_ne, lookup_insert_eq |].
  split; [by rewrite lookup_insert_eq |].
  intros a H1 H2. by rewrite !lookup_insert_ne.
Qed.

(** An instance, from the empty heap. *)
Lemma routes_keep_input_order_witness :
  let routes := [route_100km; route_90km; route_90km] in
  let annotated := imap (process_route "car" (Some 25000)) routes in
  let a1 := fresh (dom (∅ : gmap ref (list ProcessedRoute.t))) in
  let a2 := fresh (dom (<[a1 := annotated]> (∅ : gmap ref (list ProcessedRoute.t)))) in
  ∃ best h',
    calculate_route origin destination (Some routes) "car" (Some 25000) ∅
    = (Returned {| status := 200;
                   json := RoutesBody origin destination annotated best |}, h')
    ∧ length annotated = length routes
    ∧ (∀ i route, routes !! i = Some route →
         ∃ r, annotated !! i = Some r
              ∧ r = process_route "car" (Some 25000) i route
              ∧ ProcessedRoute.id r = i)
    ∧ a1 ≠ a2
    ∧ h' !! a1 = Some annotated
    ∧ h' !! a2 = Some (sorted by_fuel annotated)
    ∧ (∀ a, a ≠ a1 → a ≠ a2 → h' !! a = (∅ : gmap ref (list ProcessedRoute.t)) !! a).
Proof.
  apply (routes_keep_input_order origin destination
           [route_100km; route_90km; route_90km] "car" (Some 25000) ∅).
  discriminate.
Defined.

(** [sort] rearranges the array it is called on: in that instance the
    sorted order differs from the order of the input, and sorting
    [processedRoutes] itself would have changed the answer. *)
Example sort_is_in_place :
  let annotated :=
    imap (process_route "car" (Some 25000)) [route_100km; route_90km; route_90km] in
  sorted by_fuel annotated ≠ annotated
  ∧ ∀ (a : ref) h,
      h !! a = Some annotated →
      snd (Array_sort by_fuel a h) !! a = Some (sorted by_fuel annotated).
Proof.
  split.
  - vm_compute. discriminate.
  - intros a h Ha. unfold Array_sort. cbn [snd]. rewrite Ha. apply lookup_insert_eq.
Qed.

(** C8, as stated, fails: for the empty list the answer carries no list of
    routes at all. *)
Lemma empty_routes_counterexample :
  ¬ ∃ status start end_ best h',
      calculate_route origin destination (Some []) "car" (Some 25000) ∅
      = (Returned {| status := status; json := RoutesBody start end_ [] best |}, h').
Proof. intros (status & start & end_ & best & h' & H). vm_compute in H. discriminate. Qed.

(** C8, amended. For the empty list, and for an answer of the routing
    service without a list, the endpoint answers with status 404 and the
    error "No route found", allocates nothing and ranks nothing.  The
    ranking itself has no [id] to give for an empty list: reading the
    first element of the sorted copy throws. *)
Theorem empty_routes_not_found (startCoords endCoords : Coords)
    (vehicleType : string) (fuelPrice : option Q) h :
  calculate_route startCoords endCoords (Some []) vehicleType fuelPrice h
  = (Returned {| status := 404; json := ErrorBody "No route found" |}, h)
  ∧ calculate_route startCoords endCoords None vehicleType fuelPrice h
    = (Returned {| status := 404; json := ErrorBody "No route found" |}, h)
  ∧ fst (estimate startCoords endCoords [] vehicleType fuelPrice h)
    = Thrown (TypeError "Cannot read properties of undefined (reading 'id')").
Proof.
  split; [reflexivity |]. split; [reflexivity |].
  by rewrite estimate_run.
Qed.

End Answer.

(** ** The fields of a returned route *)

Section Fields.

Local Open Scope Q_scope.

Implicit Types (h : gmap ref (list ProcessedRoute.t)) (routes : list Route.t).

Lemma rounded_to_proper (f : nat) (x x' v : Q) :
  x == x' → rounded_to f x v → rounded_to f x' v.
Proof. intros Hx [Hn Hclose]. split; [done |]. by rewrite <- Hx. Qed.

(** A string made by [toFixed] from a number below [10^21] reads back as
    that number rounded to [f] decimals. *)
Lemma toFixed_rounded (q x : Q) (f : nat) :
  q == x → Qabs x < inject_Z (10 ^ 21) →
  ∃ v, parseFloat (toFixed (Finite q) f) = Finite v ∧ rounded_to f x v.
Proof.
  intros Hq Hx. rewrite parseFloat_toFixed.
  destruct (toFixed_number_rounded q f) as (v & Hv & Hr); [by rewrite Hq |].
  exists v. split; [done |]. by apply (rounded_to_proper f q).
Qed.

(** The display fields of an annotated route. *)
Lemma process_route_display (vehicleType : string) (fuelPrice : option Q)
    (i : nat) (route : Route.t) :
  let r := process_route vehicleType fuelPrice i route in
  (∀ km, (Finite (Route.distance route) / 1000)%num = Finite km →
     Qabs km < inject_Z (10 ^ 21) →
     ∃ n : Z, (0 <= n)%Z
       ∧ ProcessedRoute.distanceKm r = Chars (decimal_notation (Qneg km) n 1)
       ∧ Qabs (inject_Z n / 10 - Qabs km) <= 1 # 20)
  ∧ (∀ minutes, (Finite (Route.duration route) / 60)%num = Finite minutes →
       Qabs minutes < inject_Z (10 ^ 21) →
       ∃ n : Z, (0 <= n)%Z
         ∧ ProcessedRoute.durationMin r = Chars (decimal_notation (Qneg minutes) n 0)
         ∧ Qabs (inject_Z n - Qabs minutes) <= 1 # 2)
  ∧ (∀ speed, avgSpeed_of route = Finite speed →
       ∃ z : Z, ProcessedRoute.avgSpeed r = Finite (inject_Z z)
                ∧ Qabs (inject_Z z - speed) <= 1 # 2)
  ∧ hasOwnProperty r "efficiencyFactor" = false.
Proof.
  intros r. subst r. cbn [process_route ProcessedRoute.distanceKm
    ProcessedRoute.durationMin ProcessedRoute.avgSpeed].
  refine (conj _ (conj _ (conj _ _))).
  - intros km -> Hkm. destruct (toFixed_notation km 1 Hkm) as (n & Hn & Hs & Hclose).
    exists n. split; [done |]. split; [done |].
    change (inject_Z (10 ^ Z.of_nat 1)) with 10 in Hclose.
    assert (1 / (2 * 10) == 1 # 20) as Hq by reflexivity. by rewrite Hq in Hclose.
  - intros minutes -> Hmin.
    destruct (toFixed_notation minutes 0 Hmin) as (n & Hn & Hs & Hclose).
    exists n. split; [done |]. split; [done |].
    change (inject_Z (10 ^ Z.of_nat 0)) with 1 in Hclose.
    assert (1 / (2 * 1) == 1 # 2) as Hq by reflexivity. rewrite Hq in Hclose.
    assert (inject_Z n / 1 == inject_Z n) as Hd by (field; lra).
    by rewrite Hd in Hclose.
  - intros speed Hs. destruct (round_rounded speed) as (z & Hz & Hclose).
    exists z. rewrite calculateFuel_steps. unfold calculateFuel_with.
    cbn [FuelStats.avgSpeed]. by rewrite Hs.
  - reflexivity.
Qed.

(** The own properties of an annotated route are the nine of the object
    literal. *)
Lemma hasOwnProperty_spec (r : ProcessedRoute.t) (key : string) :
  hasOwnProperty r key = true
  ↔ key ∈ [ "id"; "geometry"; "distanceKm"; "durationMin"; "fuelUsedLiters";
            "fuelCost"; "avgSpeed"; "isFastest"; "score" ].
Proof.
  unfold hasOwnProperty, own_properties. cbn [assoc].
  repeat match goal with
         | |- context [String.eqb key ?k] =>
             destruct (String.eqb_spec key k) as [-> | ?];
             [split; [intros _; repeat first [by left | right] | done] |]
         end.
  split; [done |]. intros Hin.
  repeat (apply elem_of_cons in Hin as [-> | Hin]; [done |]).
  by apply elem_of_nil in Hin.
Qed.

(** The efficiency factor that [calculateFuel] returns is rounded to two
    decimals. *)
Lemma calculateFuel_efficiencyFactor (route : Route.t) (vehicleType : string) :
  FuelStats.efficiencyFactor (calculateFuel route vehicleType)
  = toFixed_number (efficiencyFactor_of (resolve vehicleType) (avgSpeed_of route)) 2.
Proof.
  rewrite calculateFuel_steps. unfold calculateFuel_with. apply parseFloat_toFixed.
Qed.

(** C9, as stated, fails: a returned route has no field
    [efficiencyFactor]. *)
Lemma display_fields_counterexample :
  ∃ rs best r,
    fst (calculate_route origin destination (Some [route_100km]) "car" (Some 25000) ∅)
    = Returned {| status := 200; json := RoutesBody origin destination rs best |}
    ∧ r ∈ rs
    ∧ ¬ (hasOwnProperty r "distanceKm" = true
         ∧ hasOwnProperty r "durationMin" = true
         ∧ hasOwnProperty r "avgSpeed" = true
         ∧ hasOwnProperty r "efficiencyFactor" = true).
Proof.
  exists [process_route "car" (Some 25000) 0 route_100km], 0%nat,
    (process_route "car" (Some 25000) 0 route_100km).
  split; [vm_compute; reflexivity |]. split; [by left |].
  intros (_ & _ & _ & H). vm_compute in H. discriminate.
Qed.

(** C9, amended. Every returned route carries three display fields.
    [distanceKm] is the number that the code computes for the distance in
    kilometres, rounded to 1 decimal: the notation with one decimal of a
    number of tenths at most half a tenth away from it.  [durationMin] is
    the number computed for the duration in minutes, rounded to an
    integer in the same way (both as long as the magnitude stays below
    10^21, where [toFixed] leaves the decimal notation).  [avgSpeed] is the
    average speed that the code computes, when it is finite, rounded to
    the nearest integer.  The route has no field [efficiencyFactor]: the
    efficiency factor is rounded to 2 decimals in the result of
    [calculateFuel] and is not copied into the route. *)
Theorem display_fields (startCoords endCoords : Coords) routes
    (vehicleType : string) (fuelPrice : option Q) h :
  routes ≠ [] →
  ∃ rs best h',
    calculate_route startCoords endCoords (Some routes) vehicleType fuelPrice h
    = (Returned {| status := 200;
                   json := RoutesBody startCoords endCoords rs best |}, h')
    ∧ ∀ i r, rs !! i = Some r →
        ∃ route, routes !! i = Some route
          ∧ hasOwnProperty r "distanceKm" = true
          ∧ hasOwnProperty r "durationMin" = true
          ∧ hasOwnProperty r "avgSpeed" = true
          ∧ (∀ km, (Finite (Route.distance route) / 1000)%num = Finite km →
               Qabs km < inject_Z (10 ^ 21) →
               ∃ n : Z, (0 <= n)%Z
                 ∧ ProcessedRoute.distanceKm r = Chars (decimal_notation (Qneg km) n 1)
                 ∧ Qabs (inject_Z n / 10 - Qabs km) <= 1 # 20)
          ∧ (∀ minutes, (Finite (Route.duration route) / 60)%num = Finite minutes →
               Qabs minutes < inject_Z (10 ^ 21) →
               ∃ n : Z, (0 <= n)%Z
                 ∧ ProcessedRoute.durationMin r
                   = Chars (decimal_notation (Qneg minutes) n 0)
                 ∧ Qabs (inject_Z n - Qabs minutes) <= 1 # 2)
          ∧ (∀ speed, avgSpeed_of route = Finite speed →
               ∃ z : Z, ProcessedRoute.avgSpeed r = Finite (inject_Z z)
                        ∧ Qabs (inject_Z z - speed) <= 1 # 2)
          ∧ hasOwnProperty r "efficiencyFactor" = false
          ∧ FuelStats.efficiencyFactor (calculateFuel route vehicleType)
            = parseFloat
                (toFixed (efficiencyFactor_of (resolve vehicleType) (avgSpeed_of route)) 2).
Proof.
  intros Hne.
  destruct (calculate_route_run startCoords endCoords routes vehicleType fuelPrice h Hne)
    as (first & rest & _ & Hrun).
  eexists _, _, _. split; [exact Hrun |].
  intros i r Hr. apply annotated_lookup in Hr as (route & Hroute & ->).
  exists route. split; [done |].
  destruct (process_route_display vehicleType fuelPrice i route)
    as (Hd & Ht & Hs & He).
  repeat (split; [done |]). reflexivity.
Qed.

(** An instance. *)
Lemma display_fields_witness :
  ∃ rs best h',
    calculate_route origin destination (Some [route_100km; route_80km]) "truck" None ∅
    = (Returned {| status := 200; json := RoutesBody origin destination rs best |}, h')
    ∧ ∀ i r, rs !! i = Some r →
        ∃ route, [route_100km; route_80km] !! i = Some route
          ∧ hasOwnProperty r "distanceKm" = true
          ∧ hasOwnProperty r "durationMin" = true
          ∧ hasOwnProperty r "avgSpeed" = true
          ∧ (∀ km, (Finite (Route.distance route) / 1000)%num = Finite km →
               Qabs km < inject_Z (10 ^ 21) →
               ∃ n : Z, (0 <= n)%Z
                 ∧ ProcessedRoute.distanceKm r = Chars (decimal_notation (Qneg km) n 1)
                 ∧ Qabs (inject_Z n / 10 - Qabs km) <= 1 # 20)
          ∧ (∀ minutes, (Finite (Route.duration route) / 60)%num = Finite minutes →
               Qabs minutes < inject_Z (10 ^ 21) →
               ∃ n : Z, (0 <= n)%Z
                 ∧ ProcessedRoute.durationMin r
                   = Chars (decimal_notation (Qneg minutes) n 0)
                 ∧ Qabs (inject_Z n - Qabs minutes) <= 1 # 2)
          ∧ (∀ speed, avgSpeed_of route = Finite speed →
               ∃ z : Z, ProcessedRoute.avgSpeed r = Finite (inject_Z z)
                        ∧ Qabs (inject_Z z - speed) <= 1 # 2)
          ∧ hasOwnProperty r "efficiencyFactor" = false
          ∧ FuelStats.efficiencyFactor (calculateFuel route "truck")
            = parseFloat
                (toFixed (efficiencyFactor_of (resolve "truck") (avgSpeed_of route)) 2).
Proof.
  apply (display_fields origin destination [route_100km; route_80km] "truck" None ∅).
  discriminate.
Defined.



End Fields.

(** ** More on the answer of the endpoint *)

Section AnswerMore.

Local Open Scope Q_scope.

Implicit Types (h : gmap ref (list ProcessedRoute.t)) (routes : list Route.t).


(** X2. The flag [isFastest] marks the first route of the answer and no other,
    whatever the durations of the routes. *)
Theorem isFastest_first_only (startCoords endCoords : Coords) routes
    (vehicleType : string) (fuelPrice : option Q) h :
  routes ≠ [] →
  ∃ rs best h',
    calculate_route startCoords endCoords (Some routes) vehicleType fuelPrice h
    = (Returned {| status := 200;
                   json := RoutesBody startCoords endCoords rs best |}, h')
    ∧ ProcessedRoute.isFastest <$> rs = imap (λ i _, Nat.eqb i 0) routes
    ∧ (∃ r, rs !! 0%nat = Some r ∧ ProcessedRoute.isFastest r = true)
    ∧ (∀ i r, rs !! i = Some r → ProcessedRoute.isFastest r = true → i = 0%nat).
Proof.
  intros Hne.
  destruct (calculate_route_run startCoords endCoords routes vehicleType fuelPrice h Hne)
    as (first & rest & _ & Hrun).
  eexists _, _, _. split; [exact Hrun |]. split; [| split].
  - rewrite fmap_imap. by apply imap_ext.
  - destruct routes as [| route routes']; [done |]. by eexists.
  - intros i r Hr Hfast. apply annotated_lookup in Hr as (route & _ & ->).
    cbn in Hfast. by apply Nat.eqb_eq in Hfast.
Qed.

Lemma isFastest_first_only_witness :
  ∃ rs best h',
    calculate_route origin destination (Some [route_90km; route_100km]) "car" None ∅
    = (Returned {| status := 200;
                   json := RoutesBody origin destination rs best |}, h')
    ∧ ProcessedRoute.isFastest <$> rs
      = imap (λ i _, Nat.eqb i 0) [route_90km; route_100km]
    ∧ (∃ r, rs !! 0%nat = Some r ∧ ProcessedRoute.isFastest r = true)
    ∧ (∀ i r, rs !! i = Some r → ProcessedRoute.isFastest r = true → i = 0%nat).
Proof.
  apply (isFastest_first_only origin destination [route_90km; route_100km] "car" None ∅).
  discriminate.
Defined.

(** X3. A category that names an inherited member, as ["constructor"] does,
    is not rejected: the endpoint answers with status 200, every route of
    the answer has [NaN] for its fuel and "NaN" for its cost, and the route
    it names as the best is the first one. *)
Theorem inherited_category_answer (startCoords endCoords : Coords) routes
    (vehicleType : string) (fuelPrice : option Q) h :
  routes ≠ [] →
  vehicleType ∈ Object_prototype →
  ∃ rs h',
    calculate_route startCoords endCoords (Some routes) vehicleType fuelPrice h
    = (Returned {| status := 200;
                   json := RoutesBody startCoords endCoords rs 0 |}, h')
    ∧ length rs = length routes
    ∧ ∀ r, r ∈ rs →
        ProcessedRoute.fuelUsedLiters r = NaN
        ∧ ProcessedRoute.fuelCost r = Chars "NaN".
Proof.
  intros Hne Hproto.
  destruct (calculate_route_run startCoords endCoords routes vehicleType fuelPrice h Hne)
    as (first & rest & Hsort & Hrun).
  set (annotated := imap (process_route vehicleType fuelPrice) routes) in *.
  pose proof (resolve_inherited vehicleType Hproto) as Hin.
  assert (∀ r, r ∈ annotated → ProcessedRoute.fuelUsedLiters r = NaN) as Hnan.
  { intros r Hr. by apply (annotated_fuel_nan routes vehicleType fuelPrice vehicleType). }
  assert (sorted by_fuel annotated = annotated) as Hsame.
  { by apply (sorted_incomparable ProcessedRoute.fuelUsedLiters). }
  rewrite Hsame in Hsort.
  assert (annotated !! 0%nat = Some first) as H0 by (by rewrite Hsort).
  assert (ProcessedRoute.id first = 0%nat) as Hid.
  { by apply annotated_lookup in H0 as (route & _ & ->). }
  rewrite Hid in Hrun. eexists _, _. split; [exact Hrun |].
  split; [apply length_imap |].
  intros r Hr. split; [by apply Hnan |].
  pose proof (Hnan r Hr) as Hfuel.
  apply annotated_elem in Hr as (i & route & _ & ->).
  cbn [process_route ProcessedRoute.fuelUsedLiters ProcessedRoute.fuelCost] in *.
  by rewrite Hfuel.
Qed.

Lemma inherited_category_answer_witness :
  ∃ rs h',
    calculate_route origin destination (Some [route_100km; route_90km]) "toString"
      (Some 25000) ∅
    = (Returned {| status := 200;
                   json := RoutesBody origin destination rs 0 |}, h')
    ∧ length rs = length [route_100km; route_90km]
    ∧ ∀ r, r ∈ rs →
        ProcessedRoute.fuelUsedLiters r = NaN
        ∧ ProcessedRoute.fuelCost r = Chars "NaN".
Proof.
  apply (inherited_category_answer origin destination [route_100km; route_90km]
           "toString" (Some 25000) ∅).
  - discriminate.
  - apply (bool_decide_unpack _). by vm_compute.
Defined.

End AnswerMore.

(** ** More on the figures of a route *)

Section FiguresMore.

Local Open Scope Q_scope.

Implicit Types (h : gmap ref (list ProcessedRoute.t)) (routes : list Route.t).

Lemma mul_Finite (a b : Q) : (Finite a * Finite b)%num = Finite (Qred (a * b)).
Proof. reflexivity. Qed.

Lemma toFixed_value_nonneg (q : Q) (f : nat) : 0 <= q → 0 <= toFixed_value q f.
Proof.
  intros Hq. unfold toFixed_value.
  rewrite (proj2 (Qneg_false q) Hq).
  pose proof (scale_pos f) as Hs.
  assert (0 <= Qfloor (Qabs q * inject_Z (10 ^ Z.of_nat f) + (1 # 2)))%Z as Hn.
  { apply Qfloor_half_nonneg. apply Qmult_le_0_compat; [apply Qabs_nonneg | lra]. }
  rewrite Zle_Qle in Hn. change (inject_Z 0) with 0 in Hn.
  rewrite Qmult_1_l. apply Qle_shift_div_l; [done |]. lra.
Qed.

Lemma toFixed_value_nonpos (q : Q) (f : nat) : q <= 0 → toFixed_value q f <= 0.
Proof.
  intros Hq. unfold toFixed_value.
  pose proof (scale_pos f) as Hs.
  assert (0 <= Qfloor (Qabs q * inject_Z (10 ^ Z.of_nat f) + (1 # 2)))%Z as Hn.
  { apply Qfloor_half_nonneg. apply Qmult_le_0_compat; [apply Qabs_nonneg | lra]. }
  rewrite Zle_Qle in Hn. change (inject_Z 0) with 0 in Hn.
  set (n := inject_Z (Qfloor (Qabs q * inject_Z (10 ^ Z.of_nat f) + (1 # 2)))) in *.
  assert (0 <= n / inject_Z (10 ^ Z.of_nat f)) as Hdiv.
  { apply Qle_shift_div_l; [done |]. lra. }
  destruct (Qneg q) eqn:Hneg.
  - lra.
  - apply Qneg_false in Hneg. assert (q == 0) as Hz by lra.
    assert (n == 0) as Hn0.
    { unfold n. rewrite Hz. reflexivity. }
    rewrite Hn0. unfold Qdiv. rewrite Qmult_0_l. lra.
Qed.

(** The number read back from [toFixed] has the sign of the number printed. *)
Lemma toFixed_number_sign (q : Q) (f : nat) :
  ∃ v, toFixed_number (Finite q) f = Finite v
       ∧ (0 <= q → 0 <= v) ∧ (q <= 0 → v <= 0).
Proof.
  unfold toFixed_number. destruct (Qle_bool _ _); eexists; (split; [reflexivity |]);
    rewrite Qred_correct; split; try done.
  - apply toFixed_value_nonneg.
  - apply toFixed_value_nonpos.
Qed.

(** The value of [fuelUsed] before rounding, on a vehicle profile. *)
Lemma fuelUsed_of_value (p : VehicleProfile) (route : Route.t) :
  ∃ speed e q,
    avgSpeed_of route = Finite speed
    ∧ efficiencyFactor_of (Profile p) (Finite speed) = Finite e
    ∧ 1 <= e
    ∧ fuelUsed_of (Profile p) route = Finite q
    ∧ q == Route.distance route / 1000 / 100 * baseConsumption p * e.
Proof.
  destruct (avgSpeed_of_Finite route) as (speed & Hs & _).
  destruct (efficiencyFactor_Finite p speed) as (e & He & Hle).
  exists speed, e. eexists. split; [done |]. split; [done |]. split; [done |].
  unfold fuelUsed_of. rewrite Hs, He, distanceKm_of_Finite.
  cbn [vehicle_baseConsumption]. rewrite div_Finite by discriminate.
  rewrite !mul_Finite. split; [reflexivity |]. by rewrite !Qred_correct.
Qed.

(** X4. The efficiency factor never lowers the figure: for every category
    that names no inherited member and every route whose distance is not
    negative (and at most 10^308, the range of the numbers), the fuel that
    [calculateFuel] returns is at least the nominal consumption for the
    distance, (distance / 1000 / 100) * baseConsumption, rounded in the
    same way. *)
Theorem fuelUsed_at_least_nominal (route : Route.t) (vehicleType : string) :
  vehicleType ∉ Object_prototype →
  0 <= Route.distance route →
  Route.distance route <= inject_Z (10 ^ 308) →
  let nominal :=
    (distanceKm_of route / 100 * vehicle_baseConsumption (resolve vehicleType))%num in
  Number.le (parseFloat (toFixed nominal 2))
    (FuelStats.fuelUsed (calculateFuel route vehicleType)) = true.
Proof.
  intros Hproto Hd _ nominal. subst nominal.
  destruct (resolve_to_profile vehicleType Hproto) as (p & Hp & Hreg).
  assert (0 <= baseConsumption p) as Hbase.
  { destruct Hreg as [-> | [-> | ->]]; discriminate. }
  destruct (fuelUsed_of_value p route) as (speed & e & q & _ & _ & Hle & Hq & Hv).
  rewrite calculateFuel_steps, Hp. unfold calculateFuel_with. cbn [FuelStats.fuelUsed].
  rewrite !parseFloat_toFixed, Hq. cbn [vehicle_baseConsumption].
  rewrite distanceKm_of_Finite, div_Finite by discriminate. rewrite mul_Finite.
  set (b := Qred (Qred (Qred (Route.distance route / 1000) / 100) * baseConsumption p)).
  assert (b == Route.distance route / 1000 / 100 * baseConsumption p) as Hb.
  { unfold b. by rewrite !Qred_correct. }
  assert (0 <= Route.distance route / 1000 / 100 * baseConsumption p) as H0.
  { apply Qmult_le_0_compat; [qlra | done]. }
  apply toFixed_number_mono; [lra |]. rewrite Hb, Hv.
  set (a := Route.distance route / 1000 / 100 * baseConsumption p) in *.
  assert (0 <= a * (e - 1)) as H1 by (apply Qmult_le_0_compat; lra).
  assert (a * e == a + a * (e - 1)) as -> by ring. lra.
Qed.

Lemma fuelUsed_at_least_nominal_witness :
  let nominal :=
    (distanceKm_of route_100km / 100 * vehicle_baseConsumption (resolve "car"))%num in
  Number.le (parseFloat (toFixed nominal 2))
    (FuelStats.fuelUsed (calculateFuel route_100km "car")) = true.
Proof.
  apply (fuelUsed_at_least_nominal route_100km "car").
  - apply (bool_decide_unpack _). by vm_compute.
  - discriminate.
  - by vm_compute.
Defined.

(** On a category that names no inherited member the sign of the fuel
    follows the sign of the distance. *)
Lemma fuelUsed_sign_of_distance (route : Route.t) (vehicleType : string) :
  vehicleType ∉ Object_prototype →
  ∃ v, FuelStats.fuelUsed (calculateFuel route vehicleType) = Finite v
       ∧ (0 <= Route.distance route → 0 <= v)
       ∧ (Route.distance route <= 0 → v <= 0).
Proof.
  intros Hproto. destruct (resolve_to_profile vehicleType Hproto) as (p & Hp & Hreg).
  assert (0 <= baseConsumption p) as Hbase.
  { destruct Hreg as [-> | [-> | ->]]; discriminate. }
  destruct (fuelUsed_of_value p route) as (speed & e & q & _ & _ & Hle & Hq & Hv).
  rewrite calculateFuel_steps, Hp. unfold calculateFuel_with. cbn [FuelStats.fuelUsed].
  rewrite parseFloat_toFixed, Hq.
  destruct (toFixed_number_sign q 2) as (v & -> & Hpos & Hneg).
  exists v. split; [done |]. split; intros Hd; [apply Hpos | apply Hneg]; rewrite Hv.
  - assert (0 <= Route.distance route / 1000 / 100 * baseConsumption p) as H1.
    { apply Qmult_le_0_compat; [qlra | done]. }
    apply Qmult_le_0_compat; [done | lra].
  - assert (0 <= - (Route.distance route / 1000 / 100) * baseConsumption p) as H1.
    { apply Qmult_le_0_compat; [qlra | done]. }
    assert (0 <= - (Route.distance route / 1000 / 100) * baseConsumption p * e) as H2.
    { apply Qmult_le_0_compat; [done | lra]. }
    assert (- (Route.distance route / 1000 / 100) * baseConsumption p * e
            == - (Route.distance route / 1000 / 100 * baseConsumption p * e)) as H3 by ring.
    rewrite H3 in H2. lra.
Qed.

(** X5. The engine does not validate the distance.  For every category that
    names no inherited member and every distance within the range of the
    numbers (a magnitude of 10^308 at most), the fuel that [calculateFuel]
    returns is not [NaN]; it is not negative when the distance is not
    negative, and not positive when the distance is not positive: a
    negative distance is not rejected, it gives a negative or zero
    consumption. *)
Theorem fuelUsed_sign (route : Route.t) (vehicleType : string) :
  vehicleType ∉ Object_prototype →
  Qabs (Route.distance route) <= inject_Z (10 ^ 308) →
  let fuel := FuelStats.fuelUsed (calculateFuel route vehicleType) in
  Number.is_nan fuel = false
  ∧ (0 <= Route.distance route → Number.lt fuel 0 = false)
  ∧ (Route.distance route <= 0 → Number.lt 0 fuel = false).
Proof.
  intros Hproto _ fuel. subst fuel.
  destruct (fuelUsed_sign_of_distance route vehicleType Hproto) as (v & -> & Hpos & Hneg).
  split; [reflexivity |].
  split; intros Hd; apply lt_Finite_false; [by apply Hpos | by apply Hneg].
Qed.

Lemma fuelUsed_sign_witness :
  let route := {| Route.distance := - (500); Route.duration := 60;
                  Route.geometry := line |} in
  let fuel := FuelStats.fuelUsed (calculateFuel route "bicycle") in
  Number.is_nan fuel = false
  ∧ (0 <= Route.distance route → Number.lt fuel 0 = false)
  ∧ (Route.distance route <= 0 → Number.lt 0 fuel = false).
Proof.
  apply (fuelUsed_sign {| Route.distance := - (500); Route.duration := 60;
                          Route.geometry := line |} "bicycle").
  - apply (bool_decide_unpack _). by vm_compute.
  - by vm_compute.
Defined.

(** X6. A route whose duration is zero or negative is taken as standing
    still: for every category that names no inherited member the average
    speed is 0 and the efficiency factor is the full traffic penalty,
    1 + optimalSpeed / 100 (1.5 for the motorbike, 1.8 for the car, 1.7 for
    the truck), whatever the distance. *)
Theorem standstill_penalty (route : Route.t) (vehicleType : string) :
  vehicleType ∉ Object_prototype →
  Route.duration route <= 0 →
  ∃ p, resolve vehicleType = Profile p
       ∧ FuelStats.avgSpeed (calculateFuel route vehicleType) = Finite 0
       ∧ ∃ e, FuelStats.efficiencyFactor (calculateFuel route vehicleType) = Finite e
              ∧ e == 1 + optimalSpeed p / 100.
Proof.
  intros Hproto Hduration.
  destruct (resolve_to_profile vehicleType Hproto) as (p & Hp & Hreg).
  destruct (avgSpeed_of_Finite route) as (s & _ & _ & Hstill).
  specialize (Hstill Hduration).
  exists p. split; [done |]. rewrite calculateFuel_steps, Hp. unfold calculateFuel_with.
  cbn [FuelStats.avgSpeed FuelStats.efficiencyFactor]. rewrite Hstill.
  split; [reflexivity |].
  destruct Hreg as [-> | [-> | ->]]; eexists; (split; [vm_compute; reflexivity | reflexivity]).
Qed.

Lemma standstill_penalty_witness :
  let route := {| Route.distance := 1200; Route.duration := - (60);
                  Route.geometry := line |} in
  ∃ p, resolve "truck" = Profile p
       ∧ FuelStats.avgSpeed (calculateFuel route "truck") = Finite 0
       ∧ ∃ e, FuelStats.efficiencyFactor (calculateFuel route "truck") = Finite e
              ∧ e == 1 + optimalSpeed p / 100.
Proof.
  apply (standstill_penalty {| Route.distance := 1200; Route.duration := - (60);
                               Route.geometry := line |} "truck").
  - apply (bool_decide_unpack _). by vm_compute.
  - discriminate.
Defined.

End FiguresMore.

(** ** The cost of a route *)

Section Cost.

Local Open Scope Q_scope.

Implicit Types (h : gmap ref (list ProcessedRoute.t)) (routes : list Route.t).

Lemma price_or_zero_Finite (fuelPrice : option Q) :
  ∃ c, price_or_zero fuelPrice = Finite c
       ∧ (∀ c', fuelPrice = Some c' → c == c')
       ∧ (fuelPrice = None → c == 0).
Proof.
  destruct fuelPrice as [c' |]; cbn [price_or_zero].
  - destruct (Number.truthy (Finite c')) eqn:Ht.
    + exists c'. split; [done |]. split; [by intros ? [= ->] | done].
    + exists 0. split; [done |]. split; [| done].
      intros ? [= <-]. cbn in Ht. apply negb_false_iff, Qzero_spec in Ht. by rewrite Ht.
  - exists 0. by repeat split.
Qed.

(** X7. The cost is made from the fuel figure that is returned, which is
    already rounded.  For a route whose [fuelUsedLiters] is finite,
    [fuelCost] is the product, as the code computes it, of that figure and
    the price, rounded to an integer: the notation of an integer at most
    one half away from it (below 10^21); without a price, or with a price
    of 0, it is "0". *)
Theorem fuelCost_of_rounded_fuel (startCoords endCoords : Coords) routes
    (vehicleType : string) (fuelPrice : option Q) h :
  routes ≠ [] →
  ∃ rs best h',
    calculate_route startCoords endCoords (Some routes) vehicleType fuelPrice h
    = (Returned {| status := 200;
                   json := RoutesBody startCoords endCoords rs best |}, h')
    ∧ ∀ r fuel, r ∈ rs → ProcessedRoute.fuelUsedLiters r = Finite fuel →
        (∀ cost,
           (ProcessedRoute.fuelUsedLiters r * price_or_zero fuelPrice)%num = Finite cost →
           Qabs cost < inject_Z (10 ^ 21) →
           ∃ n : Z, (0 <= n)%Z
             ∧ ProcessedRoute.fuelCost r = Chars (decimal_notation (Qneg cost) n 0)
             ∧ Qabs (inject_Z n - Qabs cost) <= 1 # 2)
        ∧ (fuelPrice = None ∨ (∃ c, fuelPrice = Some c ∧ c == 0) →
           ProcessedRoute.fuelCost r = Chars "0").
Proof.
  intros Hne.
  destruct (calculate_route_run startCoords endCoords routes vehicleType fuelPrice h Hne)
    as (first & rest & _ & Hrun).
  eexists _, _, _. split; [exact Hrun |].
  intros r fuel Hr Hfuel.
  apply annotated_elem in Hr as (i & route & _ & ->).
  cbn [process_route ProcessedRoute.fuelUsedLiters ProcessedRoute.fuelCost] in *.
  rewrite Hfuel. split.
  - intros cost -> Hcost.
    destruct (toFixed_notation cost 0 Hcost) as (n & Hn & Hs & Hclose).
    exists n. split; [done |]. split; [done |].
    change (inject_Z (10 ^ Z.of_nat 0)) with 1 in Hclose.
    assert (1 / (2 * 1) == 1 # 2) as Hq by reflexivity. rewrite Hq in Hclose.
    assert (inject_Z n / 1 == inject_Z n) as Hd by (field; lra).
    by rewrite Hd in Hclose.
  - intros Hzero.
    destruct (price_or_zero_Finite fuelPrice) as (c0 & -> & Hsome & Hnone).
    assert (c0 == 0) as Hc0.
    { destruct Hzero as [Hn | (c & Hc & Hz)]; [by apply Hnone |].
      by rewrite (Hsome c Hc). }
    rewrite mul_Finite.
    assert (Qred (fuel * c0) = Qred 0) as ->; [| reflexivity].
    apply Qred_complete. rewrite Hc0. ring.
Qed.

Lemma fuelCost_of_rounded_fuel_witness :
  ∃ rs best h',
    calculate_route origin destination (Some [route_100km; route_80km]) "car"
      (Some 25000) ∅
    = (Returned {| status := 200;
                   json := RoutesBody origin destination rs best |}, h')
    ∧ ∀ r fuel, r ∈ rs → ProcessedRoute.fuelUsedLiters r = Finite fuel →
        (∀ cost,
           (ProcessedRoute.fuelUsedLiters r * price_or_zero (Some 25000))%num
           = Finite cost →
           Qabs cost < inject_Z (10 ^ 21) →
           ∃ n : Z, (0 <= n)%Z
             ∧ ProcessedRoute.fuelCost r = Chars (decimal_notation (Qneg cost) n 0)
             ∧ Qabs (inject_Z n - Qabs cost) <= 1 # 2)
        ∧ (Some 25000 = None ∨ (∃ c, Some 25000 = Some c ∧ c == 0) →
           ProcessedRoute.fuelCost r = Chars "0").
Proof.
  apply (fuelCost_of_rounded_fuel origin destination [route_100km; route_80km] "car"
           (Some 25000) ∅).
  discriminate.
Defined.

(** The fuel figure of a route does not depend on the price. *)
Lemma process_route_fuel_price (vehicleType : string) (price1 price2 : option Q)
    (i : nat) (route : Route.t) :
  ProcessedRoute.fuelUsedLiters (process_route vehicleType price1 i route)
  = ProcessedRoute.fuelUsedLiters (process_route vehicleType price2 i route).
Proof. reflexivity. Qed.

(** Sorting by fuel two lists that agree, position by position, on fuel
    and [id] gives lists that agree in the same way. *)
Lemma sorted_by_fuel_related (l1 l2 : list ProcessedRoute.t) :
  Forall2 (λ a b, ProcessedRoute.fuelUsedLiters a = ProcessedRoute.fuelUsedLiters b
                  ∧ ProcessedRoute.id a = ProcessedRoute.id b) l1 l2 →
  Forall2 (λ a b, ProcessedRoute.fuelUsedLiters a = ProcessedRoute.fuelUsedLiters b
                  ∧ ProcessedRoute.id a = ProcessedRoute.id b)
    (sorted by_fuel l1) (sorted by_fuel l2).
Proof.
  induction 1 as [| a b l1 l2 [Hfuel Hid] Hl IH]; [constructor |].
  cbn [sorted]. revert IH. generalize (sorted by_fuel l1) (sorted by_fuel l2).
  intros s1 s2 Hs. induction Hs as [| c d s1 s2 [Hcd Hcd'] Hs IHs].
  - by repeat constructor.
  - cbn [insert_sorted]. unfold by_fuel at 1 3. rewrite Hfuel, Hcd.
    destruct (Number.gt _ _); constructor; try done. by constructor.
Qed.

(** X8. The choice of the route of least fuel does not depend on the price:
    two requests that differ in the price only get the same routes, up to
    their cost, and the same [bestFuelRouteId]. *)
Theorem best_route_price_independent (startCoords endCoords : Coords) routes
    (vehicleType : string) (price1 price2 : option Q) h :
  routes ≠ [] →
  ∃ rs1 rs2 best h1 h2,
    calculate_route startCoords endCoords (Some routes) vehicleType price1 h
    = (Returned {| status := 200;
                   json := RoutesBody startCoords endCoords rs1 best |}, h1)
    ∧ calculate_route startCoords endCoords (Some routes) vehicleType price2 h
      = (Returned {| status := 200;
                     json := RoutesBody startCoords endCoords rs2 best |}, h2)
    ∧ ProcessedRoute.fuelUsedLiters <$> rs1 = ProcessedRoute.fuelUsedLiters <$> rs2.
Proof.
  intros Hne.
  destruct (calculate_route_run startCoords endCoords routes vehicleType price1 h Hne)
    as (first1 & rest1 & Hs1 & Hrun1).
  destruct (calculate_route_run startCoords endCoords routes vehicleType price2 h Hne)
    as (first2 & rest2 & Hs2 & Hrun2).
  assert (Forall2 (λ a b, ProcessedRoute.fuelUsedLiters a = ProcessedRoute.fuelUsedLiters b
                          ∧ ProcessedRoute.id a = ProcessedRoute.id b)
            (imap (process_route vehicleType price1) routes)
            (imap (process_route vehicleType price2) routes)) as Hrel.
  { apply Forall2_same_length_lookup. split; [by rewrite !length_imap |].
    intros i a b Ha Hb.
    apply annotated_lookup in Ha as (route & Hroute & ->).
    apply annotated_lookup in Hb as (route' & Hroute' & ->).
    rewrite Hroute in Hroute'. by injection Hroute' as <-. }
  pose proof (sorted_by_fuel_related _ _ Hrel) as Hsorted.
  rewrite Hs1, Hs2 in Hsorted. apply Forall2_cons_1 in Hsorted as [[_ Hid] _].
  eexists _, _, _, _, _. split; [exact Hrun1 |]. split.
  - rewrite Hid. exact Hrun2.
  - rewrite !fmap_imap. by apply imap_ext.
Qed.

Lemma best_route_price_independent_witness :
  ∃ rs1 rs2 best h1 h2,
    calculate_route origin destination (Some [route_100km; route_90km]) "truck"
      (Some 25000) ∅
    = (Returned {| status := 200;
                   json := RoutesBody origin destination rs1 best |}, h1)
    ∧ calculate_route origin destination (Some [route_100km; route_90km]) "truck" None ∅
      = (Returned {| status := 200;
                     json := RoutesBody origin destination rs2 best |}, h2)
    ∧ ProcessedRoute.fuelUsedLiters <$> rs1 = ProcessedRoute.fuelUsedLiters <$> rs2.
Proof.
  apply (best_route_price_independent origin destination [route_100km; route_90km]
           "truck" (Some 25000) None ∅).
  discriminate.
Defined.

End Cost.

(** ** Locating the endpoints *)

Section Locate.

Local Open Scope list_scope.

Implicit Types (service : geocoder) (req : Request.t).

(** [getCoordinates] sends one search, for one place, and never fails:
    it gives [null] when the search fails and when it finds nothing, and
    the first place found otherwise. *)
Lemma getCoordinates_total (query : string) service :
  let search := {| Nominatim.q := query; Nominatim.limit := 1;
                   Nominatim.addressdetails := false |} in
  ∃ found,
    getCoordinates query service = (found, [search])
    ∧ (found = None
       ↔ (∃ message, service search = Failed message) ∨ service search = Replied [])
    ∧ (∀ first others,
         service search = Replied (first :: others) →
         found = Some {| Location.lat := parseFloat (Chars (Nominatim.lat first));
                         Location.lon := parseFloat (Chars (Nominatim.lon first));
                         Location.display_name := Some (Nominatim.display_name first) |}).
Proof.
  intros search.
  unfold getCoordinates, search_places, mbind, geo_bind, mret, geo_ret. fold search.
  destruct (service search) as [[| first others] | message] eqn:Hs; eexists;
    (split; [reflexivity |]); split; try done.
  - split; [intros _; by right | done].
  - split; [done |]. intros [[message H] | H]; discriminate.
  - intros ? ? [= <- <-]. done.
  - split; [intros _; left; by eexists | done].
Qed.

Lemma locate_given (text : string) (lat lon : string) service :
  lat ≠ "" → lon ≠ "" →
  locate text (Some lat) (Some lon) service
  = (Some {| Location.lat := parseFloat (Chars lat);
             Location.lon := parseFloat (Chars lon);
             Location.display_name := None |}, []).
Proof.
  intros Hlat Hlon. unfold locate, given.
  rewrite (proj2 (String.eqb_neq lat "") Hlat), (proj2 (String.eqb_neq lon "") Hlon).
  reflexivity.
Qed.

Lemma locate_searched (text : string) (lat lon : option string) service :
  given lat && given lon = false →
  locate text lat lon service = getCoordinates text service.
Proof. intros H. unfold locate. by rewrite H. Qed.

(** X9. The searches of one request: one for each endpoint that comes without
    both of its coordinates, the start before the destination; the
    destination is searched also when the start was not found. *)
Theorem locate_endpoints_searches req service :
  let search text := {| Nominatim.q := text; Nominatim.limit := 1;
                        Nominatim.addressdetails := false |} in
  snd (locate_endpoints req service)
  = (if given (Request.startLat req) && given (Request.startLon req)
     then [] else [search (Request.start req)])
    ++ (if given (Request.destLat req) && given (Request.destLon req)
        then [] else [search (Request.destination req)]).
Proof.
  intros search. unfold locate_endpoints, mbind, geo_bind.
  assert (∀ text lat lon,
            snd (locate text lat lon service)
            = if given lat && given lon then [] else [search text]) as Hsent.
  { intros text lat lon. unfold locate. destruct (given lat && given lon); [done |].
    by destruct (getCoordinates_total text service) as (found & -> & _). }
  pose proof (Hsent (Request.start req) (Request.startLat req) (Request.startLon req)) as H1.
  pose proof (Hsent (Request.destination req) (Request.destLat req) (Request.destLon req))
    as H2.
  destruct (locate (Request.start req) _ _ service) as [s sent1].
  destruct (locate (Request.destination req) _ _ service) as [e sent2].
  cbn [snd] in H1, H2. subst sent1 sent2.
  destruct s, e; cbn; by rewrite ?app_nil_r.
Qed.

(** X10. Coordinates that come with the request are used as they are: they are
    not searched for, whatever the text, and they are never rejected, even
    when they are not numbers. *)
Theorem locate_endpoints_given req service
    (startLat startLon destLat destLon : string) :
  Request.startLat req = Some startLat → Request.startLon req = Some startLon →
  Request.destLat req = Some destLat → Request.destLon req = Some destLon →
  startLat ≠ "" → startLon ≠ "" → destLat ≠ "" → destLon ≠ "" →
  locate_endpoints req service
  = (inr ({| Location.lat := parseFloat (Chars startLat);
             Location.lon := parseFloat (Chars startLon);
             Location.display_name := None |},
          {| Location.lat := parseFloat (Chars destLat);
             Location.lon := parseFloat (Chars destLon);
             Location.display_name := None |}), []).
Proof.
  intros E1 E2 E3 E4 H1 H2 H3 H4. unfold locate_endpoints, mbind, geo_bind.
  rewrite E1, E2, E3, E4. by rewrite !locate_given.
Qed.

Lemma locate_endpoints_given_witness :
  locate_endpoints request_with_coordinates service_down
  = (inr ({| Location.lat := parseFloat (Chars "10.76");
             Location.lon := parseFloat (Chars "106.66");
             Location.display_name := None |},
          {| Location.lat := parseFloat (Chars "north");
             Location.lon := parseFloat (Chars "east");
             Location.display_name := None |}), []).
Proof.
  apply (locate_endpoints_given request_with_coordinates service_down
           "10.76" "106.66" "north" "east"); (reflexivity || discriminate).
Defined.

(** In that request the destination is accepted with coordinates [NaN]. *)
Example coordinates_not_numbers :
  fst (locate_endpoints request_with_coordinates service_down)
  = inr ({| Location.lat := Finite (269 # 25); Location.lon := Finite (5333 # 50);
            Location.display_name := None |},
         {| Location.lat := NaN; Location.lon := NaN; Location.display_name := None |}).
Proof. vm_compute. reflexivity. Qed.

(** X11. The request ends with "Locations not found" exactly when an endpoint
    that comes without both of its coordinates is not found: its search
    fails or finds nothing.  Otherwise the handler goes on with the two
    endpoints. *)
Theorem locate_endpoints_not_found req service :
  let search text := {| Nominatim.q := text; Nominatim.limit := 1;
                        Nominatim.addressdetails := false |} in
  let missing text lat lon :=
    given lat && given lon = false
    ∧ ((∃ message, service (search text) = Failed message)
       ∨ service (search text) = Replied []) in
  ((∃ s e, fst (locate_endpoints req service) = inr (s, e))
   ∨ fst (locate_endpoints req service)
     = inl {| status := 404;
              json := ErrorBody
                "Locations not found. Please try selecting from the dropdown." |})
  ∧ ((∃ response, fst (locate_endpoints req service) = inl response)
     ↔ missing (Request.start req) (Request.startLat req) (Request.startLon req)
       ∨ missing (Request.destination req) (Request.destLat req) (Request.destLon req)).
Proof.
  intros search missing.
  assert (∀ text lat lon,
            fst (locate text lat lon service) = None ↔ missing text lat lon) as Hnone.
  { intros text lat lon. unfold missing, locate.
    destruct (given lat && given lon) eqn:Hg.
    - split; [done | by intros [? _]].
    - destruct (getCoordinates_total text service) as (found & -> & Hfound & _).
      cbn [fst]. rewrite Hfound. fold (search text). split; [by split | by intros [_ ?]]. }
  pose proof (Hnone (Request.start req) (Request.startLat req) (Request.startLon req)) as H1.
  pose proof (Hnone (Request.destination req) (Request.destLat req) (Request.destLon req))
    as H2.
  unfold locate_endpoints, mbind, geo_bind.
  destruct (locate (Request.start req) _ _ service) as [s sent1].
  destruct (locate (Request.destination req) _ _ service) as [e sent2].
  cbn [fst] in H1, H2.
  destruct s as [s |], e as [e |]; cbn [mret geo_ret fst]; split;
    try (left; by eexists _, _); try (by right).
  - split; [by intros [? ?] |]. intros [H | H]; [by apply H1 in H | by apply H2 in H].
  - split; [intros _; right; by apply H2 | by eexists].
  - split; [intros _; left; by apply H1 | by eexists].
  - split; [intros _; left; by apply H1 | by eexists].
Qed.

End Locate.

(** ** The search endpoint *)

Section Search.

Local Open Scope list_scope.

Implicit Types (s : server) (cache : gmap string (list Place.t)) (q : option string).

Lemma lower_unit_idem (c : ascii) : lower_unit (lower_unit c) = lower_unit c.
Proof. destruct c as [[] [] [] [] [] [] [] []]; reflexivity. Qed.

Lemma toLowerCase_idem (text : string) : toLowerCase (toLowerCase text) = toLowerCase text.
Proof.
  induction text as [| c text IH]; [done |].
  cbn [toLowerCase]. by rewrite lower_unit_idem, IH.
Qed.

Lemma toLowerCase_length (text : string) :
  String.length (toLowerCase text) = String.length text.
Proof. induction text as [| c text IH]; [done |]. cbn. by rewrite IH. Qed.

(** A query passes the test of the endpoint when it has three code units
    or more. *)
Lemma long_enough (query : string) :
  (String.eqb query "" || (String.length query <? 3)%nat)%bool = false
  ↔ (3 <= String.length query)%nat.
Proof.
  rewrite orb_false_iff, Nat.ltb_ge. split; [by intros [_ ?] |].
  intros Hlen. split; [| done]. apply String.eqb_neq. intros ->. cbn in Hlen. lia.
Qed.

(** When the first turn sends a search. *)
Lemma search_begin_Searching cache q (params : Nominatim.params) (cacheKey : string) :
  search_begin cache q = Searching params cacheKey
  ↔ ∃ query,
      q = Some query
      ∧ (3 <= String.length query)%nat
      ∧ cacheKey = toLowerCase query
      ∧ params = {| Nominatim.q := query; Nominatim.limit := 5;
                    Nominatim.addressdetails := true |}
      ∧ cache !! cacheKey = None
      ∧ cacheKey ∉ Object_prototype.
Proof.
  unfold search_begin, searchCache_get. split.
  - destruct q as [query |]; [| done].
    destruct (_ || _)%bool eqn:Hlen; [done |]. apply long_enough in Hlen.
    destruct (cache !! toLowerCase query) as [results |] eqn:Hown; [done |].
    case_bool_decide as Hproto; [done |].
    intros [= <- <-]. exists query. by repeat split.
  - intros (query & -> & Hlen & -> & -> & Hown & Hproto).
    apply long_enough in Hlen. rewrite Hlen, Hown.
    by rewrite bool_decide_eq_false_2.
Qed.

Lemma search_begin_storable cache q (params : Nominatim.params) (cacheKey : string) :
  search_begin cache q = Searching params cacheKey → storable cacheKey.
Proof.
  intros (query & _ & Hlen & -> & _ & _ & Hproto)%search_begin_Searching.
  split; [by rewrite toLowerCase_length |]. split; [apply toLowerCase_idem | done].
Qed.

Lemma search_turn_storable s (e : event) :
  keys_storable s → keys_storable (fst (search_turn s e)).
Proof.
  intros [Hcache Hawait]. destruct e as [request q | request answer]; cbn [search_turn].
  - destruct (search_begin (searchCache s) q) as [response | params cacheKey] eqn:Hb;
      cbn [fst]; [done |].
    split; [done |]. cbn [awaiting]. intros r key Hr.
    apply lookup_insert_Some in Hr as [[_ <-] | [_ Hr]]; [| by eapply Hawait].
    by eapply search_begin_storable.
  - destruct (awaiting s !! request) as [cacheKey |] eqn:Hr; [| done].
    destruct answer as [data | message]; cbn [search_resume fst].
    + split; cbn [searchCache awaiting].
      * intros key results Hkey.
        apply lookup_insert_Some in Hkey as [[<- _] | [_ Hkey]];
          [by eapply Hawait | by eapply Hcache].
      * intros r key Hkey. apply lookup_delete_Some in Hkey as [_ Hkey]. by eapply Hawait.
    + split; cbn [searchCache awaiting]; [done |].
      intros r key Hkey. apply lookup_delete_Some in Hkey as [_ Hkey]. by eapply Hawait.
Qed.

Lemma search_run_storable s (events : list event) :
  keys_storable s → keys_storable (fst (search_run s events)).
Proof.
  revert s. induction events as [| e events IH]; intros s Hs; [done |].
  cbn [search_run]. pose proof (search_turn_storable s e Hs) as Hturn.
  destruct (search_turn s e) as [s' done1]. specialize (IH s' Hturn).
  by destruct (search_run s' events) as [s'' done2].
Qed.

Lemma search_begin_miss cache (query : string) :
  (3 <= String.length query)%nat →
  cache !! toLowerCase query = None →
  toLowerCase query ∉ Object_prototype →
  search_begin cache (Some query)
  = Searching {| Nominatim.q := query; Nominatim.limit := 5;
                 Nominatim.addressdetails := true |} (toLowerCase query).
Proof. intros Hlen Hown Hproto. apply search_begin_Searching. by exists query. Qed.

Lemma search_begin_hit cache (query : string) (results : list Place.t) :
  (3 <= String.length query)%nat →
  cache !! toLowerCase query = Some results →
  search_begin cache (Some query)
  = Answered {| search_status := 200; search_json := Suggestions results |}.
Proof.
  intros Hlen%long_enough Hown. unfold search_begin, searchCache_get.
  by rewrite Hlen, Hown.
Qed.

Lemma search_run_cons s (e : event) (events : list event) :
  search_run s (e :: events)
  = (fst (search_run (fst (search_turn s e)) events),
     snd (search_turn s e) ++ snd (search_run (fst (search_turn s e)) events)).
Proof.
  cbn [search_run]. destruct (search_turn s e) as [s' done1]. cbn [fst snd].
  by destruct (search_run s' events) as [s'' done2].
Qed.

(** X12. Whatever the requests and the answers of the service, and however
    they interleave, every key of the cache is a lower-case string of at
    least three code units that names no inherited member; ["__proto__"]
    in particular is never stored under. *)
Theorem searchCache_keys (events : list event) (key : string) (results : list Place.t) :
  searchCache (fst (search_run server_start events)) !! key = Some results →
  (3 <= String.length key)%nat
  ∧ toLowerCase key = key
  ∧ (key ∉ Object_prototype)
  ∧ key ≠ "__proto__".
Proof.
  intros Hkey.
  destruct (search_run_storable server_start events) as [Hcache _]; [by split |].
  destruct (Hcache key results Hkey) as (Hlen & Hlow & Hproto).
  repeat split; try done. intros ->. apply Hproto. by apply (bool_decide_unpack _).
Qed.

Lemma searchCache_keys_witness :
  searchCache (fst (search_run server_start
      [Arrives 0 (Some "Ben Thanh"); Settles 0 (Replied [ben_thanh])])) !! "ben thanh"
    = Some [suggestion ben_thanh]
  ∧ (3 <= String.length "ben thanh")%nat
  ∧ toLowerCase "ben thanh" = "ben thanh"
  ∧ ("ben thanh" ∉ Object_prototype)
  ∧ "ben thanh" ≠ "__proto__".
Proof.
  split; [by vm_compute |].
  apply (searchCache_keys
    [Arrives 0 (Some "Ben Thanh"); Settles 0 (Replied [ben_thanh])]
    "ben thanh" [suggestion ben_thanh]).
  by vm_compute.
Defined.

(** X13. The cache never drops a key: an entry, once stored, has a value after
    every run. *)
Theorem searchCache_grows s (events : list event) (key : string) :
  is_Some (searchCache s !! key) →
  is_Some (searchCache (fst (search_run s events)) !! key).
Proof.
  revert s. induction events as [| e events IH]; intros s Hkey; [done |].
  rewrite search_run_cons. cbn [fst]. apply IH.
  destruct e as [request q | request answer]; cbn [search_turn].
  - by destruct (search_begin (searchCache s) q).
  - destruct (awaiting s !! request) as [cacheKey |]; [| done].
    destruct answer as [data | message]; cbn [search_resume fst searchCache]; [| done].
    apply lookup_insert_is_Some'. by right.
Qed.

Lemma searchCache_grows_witness :
  is_Some (searchCache {| searchCache := {["ben thanh" := []]}; awaiting := ∅ |}
             !! "ben thanh")
  ∧ is_Some (searchCache (fst (search_run
       {| searchCache := {["ben thanh" := []]}; awaiting := ∅ |}
       [Arrives 0 (Some "Tan Son Nhat"); Settles 0 (Replied [ben_thanh])]))
       !! "ben thanh").
Proof.
  split; [exists []; vm_compute; reflexivity |].
  apply (searchCache_grows {| searchCache := {["ben thanh" := []]}; awaiting := ∅ |}
    [Arrives 0 (Some "Tan Son Nhat"); Settles 0 (Replied [ben_thanh])] "ben thanh").
  exists []. vm_compute. reflexivity.
Defined.

Lemma search_turn_settled s (e : event) (key : string) (results : list Place.t) :
  settled s key results → settled (fst (search_turn s e)) key results.
Proof.
  intros [Hkey Hfree]. destruct e as [request q | request answer]; cbn [search_turn].
  - destruct (search_begin (searchCache s) q) as [response | params cacheKey] eqn:Hb;
      cbn [fst]; [done |].
    apply search_begin_Searching in Hb as (query & _ & _ & _ & _ & Hown & _).
    split; [done |]. cbn [awaiting]. intros r Hr.
    apply lookup_insert_Some in Hr as [[_ ->] | [_ Hr]]; [congruence | by eapply Hfree].
  - destruct (awaiting s !! request) as [cacheKey |] eqn:Hr; [| done].
    assert (cacheKey ≠ key) as Hne by (intros ->; by eapply Hfree).
    destruct answer as [data | message]; cbn [search_resume fst].
    + split; cbn [searchCache awaiting].
      * by rewrite lookup_insert_ne.
      * intros r Hr'. apply lookup_delete_Some in Hr' as [_ Hr']. by eapply Hfree.
    + split; cbn [searchCache awaiting]; [done |].
      intros r Hr'. apply lookup_delete_Some in Hr' as [_ Hr']. by eapply Hfree.
Qed.

Lemma search_run_settled s (events : list event) (key : string) (results : list Place.t) :
  settled s key results → settled (fst (search_run s events)) key results.
Proof.
  revert s. induction events as [| e events IH]; intros s Hs; [done |].
  rewrite search_run_cons. cbn [fst]. by apply IH, search_turn_settled.
Qed.

(** X14. Once results are stored under a key and no request in flight awaits
    to store under it, every later request whose query has that key in
    lower case gets these results, whatever happened in between: no search
    is sent for it and the server is left as it was. *)
Theorem search_answered_from_cache s (events : list event) (request : nat)
    (query : string) (results : list Place.t) :
  (3 <= String.length query)%nat →
  searchCache s !! toLowerCase query = Some results →
  (∀ other, awaiting s !! other ≠ Some (toLowerCase query)) →
  let later := fst (search_run s events) in
  search_turn later (Arrives request (Some query))
  = (later, [Answers request {| search_status := 200; search_json := Suggestions results |}]).
Proof.
  intros Hlen Hkey Hfree later.
  destruct (search_run_settled s events (toLowerCase query) results) as [Hlater _];
    [by split |].
  cbn [search_turn]. fold later in Hlater. by rewrite (search_begin_hit _ _ results).
Qed.

Lemma search_answered_from_cache_witness :
  let s := fst (search_run server_start
             [Arrives 0 (Some "Ben Thanh"); Settles 0 (Replied [ben_thanh])]) in
  let later := fst (search_run s
             [Arrives 1 (Some "Tan Son Nhat"); Arrives 2 (Some "ben thanh");
              Settles 1 (Failed "timeout")]) in
  search_turn later (Arrives 3 (Some "BEN THANH"))
  = (later, [Answers 3 {| search_status := 200;
                          search_json := Suggestions [suggestion ben_thanh] |}]).
Proof.
  apply (search_answered_from_cache
    (fst (search_run server_start
       [Arrives 0 (Some "Ben Thanh"); Settles 0 (Replied [ben_thanh])]))
    [Arrives 1 (Some "Tan Son Nhat"); Arrives 2 (Some "ben thanh");
     Settles 1 (Failed "timeout")] 3 "BEN THANH" [suggestion ben_thanh]).
  - cbn. lia.
  - by vm_compute.
  - intros other. by vm_compute.
Defined.

(** X15. A search that fails is answered with status 500 and stores nothing:
    the same query, asked again, is searched again. *)
Theorem search_failure_not_cached s (request again : nat) (query message : string) :
  (3 <= String.length query)%nat →
  searchCache s !! toLowerCase query = None →
  toLowerCase query ∉ Object_prototype →
  let params := {| Nominatim.q := query; Nominatim.limit := 5;
                   Nominatim.addressdetails := true |} in
  let '(s', done) := search_run s [Arrives request (Some query);
                                   Settles request (Failed message)] in
  done = [Sends request params;
          Answers request {| search_status := 500;
                             search_json := SearchError "Search failed" |}]
  ∧ searchCache s' = searchCache s
  ∧ snd (search_turn s' (Arrives again (Some query))) = [Sends again params].
Proof.
  intros Hlen Hown Hproto params. cbn [search_run search_turn].
  rewrite (search_begin_miss _ _ Hlen Hown Hproto). cbn [awaiting searchCache].
  rewrite lookup_insert_eq. cbn [search_resume searchCache app].
  split; [done |]. split; [done |].
  by rewrite (search_begin_miss _ _ Hlen Hown Hproto).
Qed.

Lemma search_failure_not_cached_witness :
  let params := {| Nominatim.q := "Ben Thanh"; Nominatim.limit := 5;
                   Nominatim.addressdetails := true |} in
  let '(s', done) := search_run server_start
                       [Arrives 0 (Some "Ben Thanh"); Settles 0 (Failed "timeout")] in
  done = [Sends 0 params;
          Answers 0 {| search_status := 500;
                       search_json := SearchError "Search failed" |}]
  ∧ searchCache s' = searchCache server_start
  ∧ snd (search_turn s' (Arrives 1 (Some "Ben Thanh"))) = [Sends 1 params].
Proof.
  apply (search_failure_not_cached server_start 0 1 "Ben Thanh" "timeout").
  - cbn. lia.
  - by vm_compute.
  - apply (bool_decide_unpack _). by vm_compute.
Defined.

(** X16. A query of three code units or more whose lower case names a member
    that every object inherits, as ["constructor"] and ["__proto__"] do, is
    answered with that member in place of suggestions, with status 200,
    at any time: no search is ever sent for it. *)
Theorem search_inherited_name (events : list event) (request : nat) (query : string) :
  (3 <= String.length query)%nat →
  toLowerCase query ∈ Object_prototype →
  let s := fst (search_run server_start events) in
  search_turn s (Arrives request (Some query))
  = (s, [Answers request {| search_status := 200;
                            search_json := InheritedMember (toLowerCase query) |}]).
Proof.
  intros Hlen Hproto s.
  destruct (search_run_storable server_start events) as [Hcache _]; [by split |].
  fold s in Hcache. cbn [search_turn]. unfold search_begin, searchCache_get.
  apply long_enough in Hlen. rewrite Hlen.
  destruct (searchCache s !! toLowerCase query) as [results |] eqn:Hown.
  - by destruct (Hcache _ _ Hown) as (_ & _ & Hnot).
  - by rewrite bool_decide_eq_true_2.
Qed.

Lemma search_inherited_name_witness :
  let s := fst (search_run server_start
             [Arrives 0 (Some "Ben Thanh"); Settles 0 (Replied [ben_thanh])]) in
  search_turn s (Arrives 1 (Some "Constructor"))
  = (s, [Answers 1 {| search_status := 200;
                      search_json := InheritedMember "constructor" |}]).
Proof.
  apply (search_inherited_name
    [Arrives 0 (Some "Ben Thanh"); Settles 0 (Replied [ben_thanh])] 1 "Constructor").
  - cbn. lia.
  - apply (bool_decide_unpack _). by vm_compute.
Defined.

(** X17. Two requests for the same key that arrive before either search comes
    back are both searched, and the answer that comes back last is the one
    the cache keeps. *)
Theorem search_overlapping s (first second : nat) (query query' : string)
    (data data' : list Nominatim.place) :
  first ≠ second →
  (3 <= String.length query)%nat →
  toLowerCase query' = toLowerCase query →
  searchCache s !! toLowerCase query = None →
  toLowerCase query ∉ Object_prototype →
  let '(s', done) := search_run s [Arrives first (Some query);
                                   Arrives second (Some query');
                                   Settles first (Replied data);
                                   Settles second (Replied data')] in
  done = [Sends first {| Nominatim.q := query; Nominatim.limit := 5;
                         Nominatim.addressdetails := true |};
          Sends second {| Nominatim.q := query'; Nominatim.limit := 5;
                          Nominatim.addressdetails := true |};
          Answers first {| search_status := 200;
                           search_json := Suggestions (suggestion <$> data) |};
          Answers second {| search_status := 200;
                            search_json := Suggestions (suggestion <$> data') |}]
  ∧ searchCache s' !! toLowerCase query = Some (suggestion <$> data').
Proof.
  intros Hne Hlen Hsame Hown Hproto.
  assert (3 <= String.length query')%nat as Hlen'.
  { by rewrite <- (toLowerCase_length query'), Hsame, toLowerCase_length. }
  cbn [search_run search_turn].
  rewrite (search_begin_miss _ _ Hlen Hown Hproto). cbn [awaiting searchCache].
  rewrite <- Hsame in Hown, Hproto.
  rewrite (search_begin_miss _ _ Hlen' Hown Hproto). cbn [awaiting searchCache].
  rewrite lookup_insert_ne by done. rewrite lookup_insert_eq.
  cbn [search_resume awaiting searchCache].
  rewrite lookup_delete_ne by done. rewrite lookup_insert_eq.
  cbn [search_resume awaiting searchCache app].
  split; [done |]. by rewrite Hsame, lookup_insert_eq.
Qed.

Lemma search_overlapping_witness :
  let '(s', done) := search_run server_start
                       [Arrives 0 (Some "Ben");
                        Arrives 1 (Some "BEN");
                        Settles 0 (Replied [ben_thanh]);
                        Settles 1 (Replied [])] in
  done = [Sends 0 {| Nominatim.q := "Ben"; Nominatim.limit := 5;
                     Nominatim.addressdetails := true |};
          Sends 1 {| Nominatim.q := "BEN"; Nominatim.limit := 5;
                     Nominatim.addressdetails := true |};
          Answers 0 {| search_status := 200;
                       search_json := Suggestions (suggestion <$> [ben_thanh]) |};
          Answers 1 {| search_status := 200;
                       search_json := Suggestions (suggestion <$> []) |}]
  ∧ searchCache s' !! toLowerCase "Ben" = Some (suggestion <$> []).
Proof.
  apply (search_overlapping server_start 0 1 "Ben" "BEN" [ben_thanh] []).
  - lia.
  - cbn. lia.
  - reflexivity.
  - by vm_compute.
  - apply (bool_decide_unpack _). by vm_compute.
Defined.

End Search.

(** ** The form *)

Section Page.

Local Open Scope Q_scope.
Local Open Scope list_scope.

Implicit Types (form : Form) (input : Input.t) (service : geocoder).

Lemma retype_all (texts : list string) input :
  let input' := foldl (λ i text, retype text i) input texts in
  Input.value input' = default (Input.value input) (last texts)
  ∧ Input.dataset_lat input' = Input.dataset_lat input
  ∧ Input.dataset_lon input' = Input.dataset_lon input.
Proof.
  revert input. induction texts as [| text texts IH]; intros input; [done |].
  cbn [foldl]. destruct (IH (retype text input)) as (-> & -> & ->).
  split; [| done]. cbn [retype Input.value]. destruct texts as [| t texts']; [done |].
  change (last (text :: t :: texts')) with (last (t :: texts')).
  destruct (last (t :: texts')) eqn:E; [done |]. by apply last_None in E.
Qed.

Lemma or_null_given (s : string) : s ≠ "" → or_null (Some s) = Some s.
Proof.
  intros Hs. unfold or_null, given. by rewrite (proj2 (String.eqb_neq s "") Hs).
Qed.

(** X18. Once a suggestion is picked for the start, its coordinates go with
    every later request, whatever the user types in the box afterwards:
    the request carries the typed text, but the server does not search
    for it, and the trip starts at the place that was picked. *)
Theorem picked_coordinates_outlive_text form (place : Place.t) (texts : list string)
    service :
  Place.lat place ≠ "" → Place.lon place ≠ "" →
  let edited := {| startInput := foldl (λ i text, retype text i)
                                   (pick place (startInput form)) texts;
                   destInput := destInput form;
                   vehicleSelect := vehicleSelect form;
                   fuelPriceInput := fuelPriceInput form |} in
  let req := payload edited in
  Request.start req = default (Place.display_name place) (last texts)
  ∧ snd (locate_endpoints req service)
    = snd (locate (Request.destination req) (Request.destLat req) (Request.destLon req)
             service)
  ∧ ∀ s e, fst (locate_endpoints req service) = inr (s, e) →
      s = {| Location.lat := parseFloat (Chars (Place.lat place));
             Location.lon := parseFloat (Chars (Place.lon place));
             Location.display_name := None |}.
Proof.
  intros Hlat Hlon edited req.
  destruct (retype_all texts (pick place (startInput form))) as (Eval & Elat & Elon).
  cbn [pick Input.value Input.dataset_lat Input.dataset_lon] in Eval, Elat, Elon.
  split; [exact Eval |].
  unfold locate_endpoints, mbind, geo_bind.
  assert (Request.startLat req = Some (Place.lat place)) as ->.
  { subst req edited. cbn [payload Request.startLat startInput].
    rewrite Elat. by apply or_null_given. }
  assert (Request.startLon req = Some (Place.lon place)) as ->.
  { subst req edited. cbn [payload Request.startLon startInput].
    rewrite Elon. by apply or_null_given. }
  rewrite (locate_given _ _ _ service Hlat Hlon).
  destruct (locate (Request.destination req) _ _ service) as [[e |] sent];
    cbn [mret geo_ret fst snd app]; (split; [by rewrite app_nil_r |]);
    intros s0 e0 [=]; by subst.
Qed.

Lemma picked_coordinates_outlive_text_witness :
  let edited := {| startInput := foldl (λ i text, retype text i)
                                   (pick place_ben_thanh (startInput form_blank))
                                   ["Ben"; "Bien Hoa"];
                   destInput := destInput form_blank;
                   vehicleSelect := vehicleSelect form_blank;
                   fuelPriceInput := fuelPriceInput form_blank |} in
  let req := payload edited in
  Request.start req = default (Place.display_name place_ben_thanh) (last ["Ben"; "Bien Hoa"])
  ∧ snd (locate_endpoints req service_one_place)
    = snd (locate (Request.destination req) (Request.destLat req) (Request.destLon req)
             service_one_place)
  ∧ ∀ s e, fst (locate_endpoints req service_one_place) = inr (s, e) →
      s = {| Location.lat := parseFloat (Chars (Place.lat place_ben_thanh));
             Location.lon := parseFloat (Chars (Place.lon place_ben_thanh));
             Location.display_name := None |}.
Proof.
  apply (picked_coordinates_outlive_text form_blank place_ben_thanh ["Ben"; "Bien Hoa"]
           service_one_place); discriminate.
Defined.

(** X19. A price box that is empty, or whose text does not start with a
    number, is sent as [null]; the server then counts a price of 0, and
    the cost of every route whose fuel is finite is "0". *)
Theorem blank_price_costs_nothing form (index : nat) (route : Route.t) :
  parseFloat (Chars (fuelPriceInput form)) = NaN →
  let req := payload form in
  let r := process_route (Request.vehicleType req) (Request.fuelPrice req) index route in
  Request.fuelPrice req = None
  ∧ (Number.is_finite (ProcessedRoute.fuelUsedLiters r) = true →
     ProcessedRoute.fuelCost r = Chars "0").
Proof.
  intros Hprice req r.
  assert (Request.fuelPrice req = None) as Hnone.
  { subst req. cbn [payload Request.fuelPrice]. by rewrite Hprice. }
  split; [done |]. subst r. rewrite Hnone.
  cbn [process_route ProcessedRoute.fuelUsedLiters ProcessedRoute.fuelCost price_or_zero].
  destruct (FuelStats.fuelUsed (calculateFuel route (Request.vehicleType req)))
    as [| | fuel]; try discriminate.
  intros _. rewrite mul_Finite.
  assert (Qred (fuel * 0) = Qred 0) as ->; [apply Qred_complete; ring | reflexivity].
Qed.

Lemma blank_price_costs_nothing_witness :
  let req := payload form_blank in
  let r := process_route (Request.vehicleType req) (Request.fuelPrice req) 0 route_80km in
  Request.fuelPrice req = None
  ∧ (Number.is_finite (ProcessedRoute.fuelUsedLiters r) = true →
     ProcessedRoute.fuelCost r = Chars "0").
Proof.
  apply (blank_price_costs_nothing form_blank 0 route_80km). reflexivity.
Defined.

End Page.

(** ** Debouncing *)

Section Debounce.

Local Open Scope list_scope.

Context {A : Type}.

Implicit Types (timeout : option A) (ticks : list (tick A)).

Lemma debounce_run_cons timeout (t : tick A) ticks :
  debounce_run timeout (t :: ticks)
  = (fst (debounce_run (fst (debounce_step timeout t)) ticks),
     snd (debounce_step timeout t) ++ snd (debounce_run (fst (debounce_step timeout t)) ticks)).
Proof.
  cbn [debounce_run]. destruct (debounce_step timeout t) as [timeout' calls]. cbn [fst snd].
  by destruct (debounce_run timeout' ticks) as [timeout'' calls'].
Qed.

(** X20. The debounced function calls [func] with the arguments of the calls
    that a pause follows, in their order, and with no others: a call that
    another call follows before the timer fires is dropped.  A timer that
    is pending at the start counts as the call that set it. *)
Theorem debounce_calls timeout ticks :
  snd (debounce_run timeout ticks)
  = before_pause (match timeout with
                  | Some args => Called args :: ticks
                  | None => ticks
                  end).
Proof.
  revert timeout. induction ticks as [| t ticks IH]; intros timeout.
  - by destruct timeout.
  - rewrite debounce_run_cons. cbn [snd]. destruct t as [args |]; cbn [debounce_step fst snd].
    + rewrite IH. by destruct timeout.
    + destruct timeout as [args |]; cbn [fst snd]; rewrite IH; reflexivity.
Qed.

End Debounce.
